(** * Robust-Audio-Link: BFSK sender and receiver

    A shallow embedding of [sender.c] and [receiver.c] and the properties
    of the framing, CRC, modulator length, bit/byte decoding and
    synchronisation logic.

    Conventions.
    - C integers ([int], [long long], [uint32_t], [uint8_t]) are modelled
      as [Z]; where the C type truncates (the [uint8_t] cast in
      [decode_byte], the [& 0xFF] masks) the truncation is written out.
    - Arrays are lists, written by index with stdpp's [<[i:=v]>].
    - The floating-point signal path (Hann window, sines, biquads, I/Q
      correlators) is not evaluated: the sender's sample synthesis and the
      receiver's energy comparison [p1 > p0] are parameters of the model. *)

From Stdlib Require Import ZArith Lia List Bool.
From stdpp Require Import base list.
Import ListNotations.
Local Open Scope Z_scope.

(** Split nested conjunctions only. *)
Ltac splits := repeat match goal with |- _ /\ _ => split end.

(* ===================================================================== *)
(** * CRC-32 (identical in sender.c and receiver.c)                      *)
(* ===================================================================== *)

Module Crc32.

(** [uint32_t poly = 0xEDB88320u] *)
Definition poly : Z := 0xEDB88320.

(** One round of the inner loop of [crc32_init]:
    [c = (c & 1u) ? (poly ^ (c >> 1)) : (c >> 1)]. *)
Definition crc_shift (c : Z) : Z :=
  if Z.land c 1 =? 0 then Z.shiftr c 1 else Z.lxor poly (Z.shiftr c 1).

(** [for(int k=0;k<8;k++) c = ...] starting from [c = i]. *)
Definition crc32_entry (i : Z) : Z := Nat.iter 8 crc_shift i.

(** The outer loop of [crc32_init]: [k] entries remain, [i] is the
    loop variable, [tbl] the global [crc32_table]. *)
Fixpoint crc32_init_loop (k : nat) (i : Z) (tbl : list Z) : list Z :=
  match k with
  | O => tbl
  | S k' => crc32_init_loop k' (i + 1) (<[Z.to_nat i := crc32_entry i]> tbl)
  end.

(** [static uint32_t crc32_table[256]] is zero-initialised; [main] calls
    [crc32_init()] before any use. *)
Definition crc32_init : list Z := crc32_init_loop 256 0 (replicate 256 0).

Definition crc32_table : list Z := Eval vm_compute in crc32_init.

(** [crc32_table[idx]] *)
Definition table_at (idx : Z) : Z := nth (Z.to_nat idx) crc32_table 0.

(** Loop body of [crc32_compute]:
    [c = crc32_table[(c ^ data[i]) & 0xFFu] ^ (c >> 8)]. *)
Definition crc32_update (c d : Z) : Z :=
  Z.lxor (table_at (Z.land (Z.lxor c d) 0xFF)) (Z.shiftr c 8).

(** [crc32_compute(data, n)] with [data] the [n] bytes read. *)
Definition crc32_compute (data : list Z) : Z :=
  Z.lxor (fold_left crc32_update data 0xFFFFFFFF) 0xFFFFFFFF.

(** ** Reference definition, from the specification's words

    Bit-at-a-time CRC-32: the register starts at [0xFFFFFFFF]; the
    message is consumed one bit at a time, each byte least significant
    bit first (reflected input); a bit whose XOR with the low register
    bit is one triggers the reversed polynomial after the right shift;
    the result is XORed with [0xFFFFFFFF] (and is used without bit
    reversal, the register being reflected already). *)
Definition crc_bit_step (c : Z) (b : bool) : Z :=
  let c' := Z.shiftr c 1 in
  if xorb (Z.testbit c 0) b then Z.lxor c' poly else c'.

Definition byte_bits_lsb (d : Z) : list bool :=
  map (fun k => Z.testbit d (Z.of_nat k)) (seq 0 8).

Definition crc32_reference (data : list Z) : Z :=
  Z.lxor (fold_left crc_bit_step (flat_map byte_bits_lsb data) 0xFFFFFFFF)
         0xFFFFFFFF.

(** A byte as stored in a [uint8_t]. *)
Definition is_byte (d : Z) : Prop := 0 <= d < 256.

End Crc32.

(* ===================================================================== *)
(** * Parameters shared by both programs                                  *)
(* ===================================================================== *)

Module Params.

(** [#define REP 3] *)
Definition REP : Z := 3.

(** [(int)lround((double)fs * (double)BIT_DURATION)] with
    [BIT_DURATION = 0.015]: the nearest integer to [3*fs/200], halves
    rounded up.  The double product is exact enough for every positive
    [int] sample rate (at [fs = 44100] it is exactly [661.5]). *)
Definition spb_of_fs (fs : Z) : Z := (3 * fs + 100) / 200.

(** [(int)lround(PREAMBLE_SECONDS / BIT_DURATION)] is [100];
    [if(pre_bits < 32) pre_bits = 32]. *)
Definition pre_bits : Z :=
  let pre_bits := 100 in
  if pre_bits <? 32 then 32 else pre_bits.

(** ['S'], ['T'], ['E'], ['G'] *)
Definition MAGIC : list Z := [0x53; 0x54; 0x45; 0x47].

End Params.

(* ===================================================================== *)
(** * sender.c                                                            *)
(* ===================================================================== *)

Module Sender.
Import Params.

(** [#define SAMPLE_RATE 44100] *)
Definition SAMPLE_RATE : Z := 44100.

(** [malloc(n)]: a block of [n] cells whose content is unspecified,
    given here by an arbitrary function of the index. *)
Definition malloc {A} (junk : nat -> A) (n : Z) : list A :=
  map junk (seq 0 (Z.to_nat n)).

(** [memcpy(dst + off, src, |src|)] *)
Fixpoint memcpy {A} (dst : list A) (off : nat) (src : list A) : list A :=
  match src with
  | [] => dst
  | b :: src' => memcpy (<[off := b]> dst) (S off) src'
  end.

(** Lines 159-174 of [main]: the frame built around the ciphertext
    [cipher] of [clen] bytes. *)
Definition build_frame (junk : nat -> Z) (cipher : list Z) : list Z :=
  let clen := Z.of_nat (length cipher) in
  let frame_no_crc := 4 + 4 + clen in
  let frame_total := frame_no_crc + 4 in
  let frame := malloc junk frame_total in
  let frame := <[0%nat := 0x53]> frame in
  let frame := <[1%nat := 0x54]> frame in
  let frame := <[2%nat := 0x45]> frame in
  let frame := <[3%nat := 0x47]> frame in
  let frame := <[4%nat := Z.land (Z.shiftr clen 24) 0xFF]> frame in
  let frame := <[5%nat := Z.land (Z.shiftr clen 16) 0xFF]> frame in
  let frame := <[6%nat := Z.land (Z.shiftr clen 8) 0xFF]> frame in
  let frame := <[7%nat := Z.land clen 0xFF]> frame in
  let frame := memcpy frame 8 cipher in
  let crc := Crc32.crc32_compute (take (Z.to_nat frame_no_crc) frame) in
  let frame := <[Z.to_nat (frame_no_crc + 0) := Z.land (Z.shiftr crc 24) 0xFF]> frame in
  let frame := <[Z.to_nat (frame_no_crc + 1) := Z.land (Z.shiftr crc 16) 0xFF]> frame in
  let frame := <[Z.to_nat (frame_no_crc + 2) := Z.land (Z.shiftr crc 8) 0xFF]> frame in
  let frame := <[Z.to_nat (frame_no_crc + 3) := Z.land crc 0xFF]> frame in
  frame.

(** ** Wire format, from the specification's words *)

(** [BE32(v)]: the four bytes of [v], most significant first. *)
Definition be32_bytes (v : Z) : list Z :=
  [v / 2 ^ 24 mod 256; v / 2 ^ 16 mod 256; v / 2 ^ 8 mod 256; v mod 256].


(** [MAGIC || BE32(|C|) || C || BE32(CRC32(MAGIC || BE32(|C|) || C))] *)
Definition frame_spec (cipher : list Z) : list Z :=
  let covered := MAGIC ++ be32_bytes (Z.of_nat (length cipher)) ++ cipher in
  covered ++ be32_bytes (Crc32.crc32_compute covered).

Section Modulator.
Context {sample : Type}.

(** [synth bit s si] is the value stored by [buf[si++] = clampf(y)]
    for a symbol carrying [bit], at index [s] inside the symbol and
    global index [si]: window, tone and the optional cover mix. *)
Variable synth : Z -> Z -> Z -> sample.
Variable spb : Z.

(** State of the writer: the buffer and the running index [si]. *)
Definition wr : Type := list sample * Z.

(** [for(int s=0;s<spb;s++){ ... buf[si++] = clampf(y); }] *)
Fixpoint emit_symbol (k : nat) (s : Z) (bit : Z) (st : wr) : wr :=
  match k with
  | O => st
  | S k' =>
      let '(buf, si) := st in
      emit_symbol k' (s + 1) bit
        (<[Z.to_nat si := synth bit s si]> buf, si + 1)
  end.

(** [for(int b=0;b<pre_bits;b++){ int bit = (b & 1) ? 1 : 0; ... }] *)
Fixpoint preamble_loop (k : nat) (b : Z) (st : wr) : wr :=
  match k with
  | O => st
  | S k' =>
      let bit := if Z.land b 1 =? 0 then 0 else 1 in
      preamble_loop k' (b + 1) (emit_symbol (Z.to_nat spb) 0 bit st)
  end.

(** [for(int r=0;r<REP;r++)] around the sample loop. *)
Fixpoint rep_loop (k : nat) (bit : Z) (st : wr) : wr :=
  match k with
  | O => st
  | S k' => rep_loop k' bit (emit_symbol (Z.to_nat spb) 0 bit st)
  end.

(** [for(int bitpos=7; bitpos>=0; bitpos--){
       int bit = (frame[i] >> bitpos) & 1; ... }];
    [k] iterations remain and [bitpos = k - 1]. *)
Fixpoint bit_loop (k : nat) (byte : Z) (st : wr) : wr :=
  match k with
  | O => st
  | S k' =>
      let bitpos := Z.of_nat k' in
      let bit := Z.land (Z.shiftr byte bitpos) 1 in
      bit_loop k' byte (rep_loop (Z.to_nat REP) bit st)
  end.

(** [for(size_t i=0;i<frame_total;i++)] over [frame[i]]. *)
Fixpoint byte_loop (frame : list Z) (st : wr) : wr :=
  match frame with
  | [] => st
  | byte :: rest => byte_loop rest (bit_loop 8 byte st)
  end.

(** Lines 185-190 and 225-284: sizes, buffer, preamble, data.  The
    result is the buffer handed to [sf_write_float] with the final
    value of [si]. *)
Definition modulate (junk : nat -> sample) (frame : list Z) : wr :=
  let frame_total := Z.of_nat (length frame) in
  let data_bits := frame_total * 8 in
  let tx_bits := pre_bits + data_bits * REP in
  let total_samples := tx_bits * spb in
  let buf := malloc junk total_samples in
  let st := preamble_loop (Z.to_nat pre_bits) 0 (buf, 0) in
  byte_loop frame st.

(** ** Symbol-level description of the waveform *)

(** Bits of a byte, most significant first. *)
Definition byte_bits_msb (byte : Z) : list Z :=
  map (fun k => Z.land (Z.shiftr byte (7 - Z.of_nat k)) 1) (seq 0 8).

(** The symbols on the air: the alternating preamble, then every
    frame bit [REP] times. *)
Definition tx_symbols (frame : list Z) : list Z :=
  map (fun b => Z.of_nat b mod 2) (seq 0 (Z.to_nat pre_bits)) ++
  flat_map (fun byte =>
              flat_map (fun bit => replicate (Z.to_nat REP) bit)
                       (byte_bits_msb byte)) frame.

(** The [spb] samples of one symbol whose first sample has global
    index [si0]. *)
Definition render_symbol (bit : Z) (si0 : Z) : list sample :=
  map (fun s => synth bit (Z.of_nat s) (si0 + Z.of_nat s))
      (seq 0 (Z.to_nat spb)).

Fixpoint render (syms : list Z) (si0 : Z) : list sample :=
  match syms with
  | [] => []
  | bit :: rest => render_symbol bit si0 ++ render rest (si0 + spb)
  end.

(** The sample loop run once per symbol of a list. *)
Definition emit_symbols (syms : list Z) (st : wr) : wr :=
  fold_left (fun st bit => emit_symbol (Z.to_nat spb) 0 bit st) syms st.

End Modulator.

(** Outcome of the sender: the frame and the samples written to
    [encoded_signal.wav], or exit status 1. *)
Inductive outcome (sample : Type) :=
| Written (frame : list Z) (wav : list sample)
| Failed.
Arguments Written {sample}.
Arguments Failed {sample}.

(** What the environment grants one run of the sender: the three
    [malloc]s (lines 149, 163, 225) and the [sf_open] of the output file
    (line 217); [false] is a [NULL] result. *)
Record resources := {
  cipher_alloc : bool;
  frame_alloc : bool;
  out_open : bool;
  buf_alloc : bool }.

(** [main] on a command line that has a message [msg] (the bytes of
    [argv[1]], [argc >= 2]); [encrypt] stands for [encrypt_aes_ctr],
    [None] being its [-1].  Every [return 1] is [Failed], in the order of
    the source: buffer for the ciphertext, cipher, buffer for the frame,
    symbol length, output file, sample buffer.  A cover file changes the
    samples only, through [synth]; its loading has no exit. *)
Definition main {sample} (res : resources)
    (encrypt : list Z -> option (list Z))
    (synth : Z -> Z -> Z -> sample)
    (junk_frame : nat -> Z) (junk_buf : nat -> sample)
    (msg : list Z) : outcome sample :=
  if negb (cipher_alloc res) then Failed
  else
    match encrypt msg with
    | None => Failed
    | Some cipher =>
        if negb (frame_alloc res) then Failed
        else
          let frame := build_frame junk_frame cipher in
          let spb := spb_of_fs SAMPLE_RATE in
          if spb <? 40 then Failed
          else if negb (out_open res) then Failed
          else if negb (buf_alloc res) then Failed
          else
            let '(buf, si) := modulate synth spb junk_buf frame in
            Written frame buf
    end.

End Sender.

(* ===================================================================== *)
(** * receiver.c                                                          *)
(* ===================================================================== *)

Module Receiver.
Import Params.

(** [#define SEARCH_STEP_FRAC 6] and [#define REFINE_STEPS 24] *)
Definition SEARCH_STEP_FRAC : Z := 6.
Definition REFINE_STEPS : Z := 24.

(** [(int)(0.93 * pre_bits)]: the double product is exactly [93.0] for
    [pre_bits = 100]. *)
Definition early_stop : Z := 93 * pre_bits / 100.

(** ** Trace of a run

    What a run does to the sample array and which candidates it
    examines is recorded next to the value it computes:
    - [EvWindow start len]: [detect_bit_q] read [x[start + n]] for
      [0 <= n < len];
    - [EvScore off inv]: [score_preamble] was called at [off] with
      polarity [inv];
    - [EvTry p inv]: the refinement decoded four bytes at [p] with
      polarity [inv]. *)
Inductive event :=
| EvWindow (start len : Z)
| EvScore (off inv : Z)
| EvTry (p inv : Z).

Definition Tr (A : Type) : Type := A * list event.

Definition ret {A} (a : A) : Tr A := (a, []).

Definition bind {A B} (m : Tr A) (f : A -> Tr B) : Tr B :=
  let '(a, l1) := m in
  let '(b, l2) := f a in
  (b, l1 ++ l2).

Definition tell (e : event) : Tr unit := (tt, [e]).

Notation "x <- m ;; k" := (bind m (fun x => k))
  (at level 100, m at next level, right associativity).

(** The exits of [main] with status 1, by the message printed:
    "Failed to load wav", "BIT_DURATION too small or fs weird",
    "Sync not found", "MAGIC not found near sync", "MAGIC mismatch",
    "Invalid LEN", "CRC mismatch", "Decrypt failed". *)
Inductive error :=
| IoError | ConfigError | SyncNotFound | MagicNotFound | MagicMismatch
| BadLen | CrcMismatch | DecryptFailed.

(** [best_off], [best_inv], [best_score] of the coarse search. *)
Record coarse := { best_off : Z; best_inv : Z; best_score : Z }.

Section Capture.
(** The capture: [n] samples at rate [fs].  [tone start len] is the
    outcome of the comparison [p1 > p0] of [detect_bit_q] for the
    window of [len] samples at [start] of the array left by
    [preprocess] and [bandpass].  [decrypt] stands for
    [decrypt_aes_ctr], [None] being its [-1]. *)
Variables (n fs : Z) (tone : Z -> Z -> bool).
Variable decrypt : list Z -> option (list Z).

Definition spb : Z := spb_of_fs fs.

(** [detect_bit_q(x, start, len, fs, invert)] *)
Definition detect_bit_q (start len invert : Z) : Tr Z :=
  _ <- tell (EvWindow start len);;
  let bit := if tone start len then 1 else 0 in
  ret (if invert =? 0 then bit else Z.lxor bit 1).

(** [for(int r=0;r<REP;r++){ ...; ones += b; }] *)
Fixpoint decode_coded_bit_loop (k : nat) (r ones pos invert : Z) : Tr Z :=
  match k with
  | O => ret ones
  | S k' =>
      b <- detect_bit_q (pos + r * spb) spb invert;;
      decode_coded_bit_loop k' (r + 1) (ones + b) pos invert
  end.

(** [decode_coded_bit(x, pos, spb, fs, invert)] *)
Definition decode_coded_bit (pos invert : Z) : Tr Z :=
  ones <- decode_coded_bit_loop (Z.to_nat REP) 0 0 pos invert;;
  ret (if ones >? REP / 2 then 1 else 0).

(** [for(int k=0;k<8;k++){ ...; v = (uint8_t)((v<<1) | (uint8_t)(b & 1));
    *pos += (long long)REP * (long long)spb; }] *)
Fixpoint decode_byte_loop (k : nat) (v pos invert : Z) : Tr (Z * Z) :=
  match k with
  | O => ret (v, pos)
  | S k' =>
      b <- decode_coded_bit pos invert;;
      let v := Z.lor (Z.shiftl v 1) (Z.land b 1) mod 256 in
      decode_byte_loop k' v (pos + REP * spb) invert
  end.

(** [decode_byte(x, &pos, spb, fs, invert)]: the byte and the new
    value of [*pos]. *)
Definition decode_byte (pos invert : Z) : Tr (Z * Z) :=
  decode_byte_loop 8 0 pos invert.

(** [for(int i=0;i<k;i++) buf[i] = decode_byte(x, &pos, ...)] *)
Fixpoint decode_bytes (k : nat) (pos invert : Z) : Tr (list Z * Z) :=
  match k with
  | O => ret ([], pos)
  | S k' =>
      r <- decode_byte pos invert;;
      let '(v, pos) := r in
      rs <- decode_bytes k' pos invert;;
      let '(vs, pos) := rs in
      ret (v :: vs, pos)
  end.

(** The loop of [score_preamble]; [k] iterations remain. *)
Fixpoint score_preamble_loop (k : nat) (b score off invert : Z) : Tr Z :=
  match k with
  | O => ret score
  | S k' =>
      let pos := off + b * spb in
      if pos + spb >=? n then ret score
      else
        let expected := if Z.land b 1 =? 0 then 0 else 1 in
        got <- detect_bit_q pos spb invert;;
        let score := if got =? expected then score + 1 else score in
        score_preamble_loop k' (b + 1) score off invert
  end.

(** [score_preamble(x, n, off, spb, fs, pre_bits, invert)] *)
Definition score_preamble (off invert : Z) : Tr Z :=
  _ <- tell (EvScore off invert);;
  score_preamble_loop (Z.to_nat pre_bits) 0 0 off invert.

(** [search_max = lround(SEARCH_SECONDS * fs)], clamped to [n]. *)
Definition search_max : Z :=
  let search_max := 3 * fs in
  if search_max >? n then n else search_max.

(** [step = spb / SEARCH_STEP_FRAC; if(step < 1) step = 1] *)
Definition step : Z :=
  let step := spb / SEARCH_STEP_FRAC in
  if step <? 1 then 1 else step.

(** The coarse loop (lines 291-299).  [None] only when [fuel] runs
    out before the loop condition fails. *)
Fixpoint coarse_loop (fuel : nat) (off : Z) (st : coarse)
  : Tr (option coarse) :=
  match fuel with
  | O => ret None
  | S fuel' =>
      if off + pre_bits * spb <? search_max then
        s0 <- score_preamble off 0;;
        let st := if s0 >? best_score st
                  then {| best_off := off; best_inv := 0; best_score := s0 |}
                  else st in
        s1 <- score_preamble off 1;;
        let st := if s1 >? best_score st
                  then {| best_off := off; best_inv := 1; best_score := s1 |}
                  else st in
        if best_score st >? early_stop then ret (Some st)
        else coarse_loop fuel' (off + step) st
      else ret (Some st)
  end.

Definition coarse_fuel : nat := S (Z.to_nat search_max).

Definition coarse_search : Tr (option coarse) :=
  coarse_loop coarse_fuel 0
    {| best_off := -1; best_inv := 0; best_score := -1 |}.

(** [step2 = spb / REFINE_STEPS; if(step2 < 1) step2 = 1] *)
Definition step2 : Z :=
  let step2 := spb / REFINE_STEPS in
  if step2 <? 1 then 1 else step2.

(** [m0=='S' && m1=='T' && m2=='E' && m3=='G'] *)
Definition is_magic (m : list Z) : bool :=
  match m with
  | [m0; m1; m2; m3] =>
      (m0 =? 0x53) && (m1 =? 0x54) && (m2 =? 0x45) && (m3 =? 0x47)
  | _ => false
  end.

(** [for(int inv_try=0; inv_try<=1; inv_try++)] at [p = base + delta];
    [Some (p, inv_try)] is the jump to [FOUND]. *)
Fixpoint refine_inner (k : nat) (inv_try p : Z) : Tr (option (Z * Z)) :=
  match k with
  | O => ret None
  | S k' =>
      if p <? 0 then refine_inner k' (inv_try + 1) p
      else if p + 4 * REP * spb * 8 >=? n then refine_inner k' (inv_try + 1) p
      else
        _ <- tell (EvTry p inv_try);;
        m <- decode_bytes 4 p inv_try;;
        if is_magic (fst m) then ret (Some (p, inv_try))
        else refine_inner k' (inv_try + 1) p
  end.

(** [for(long long delta = -spb; delta <= spb; delta += step2)].
    The value is [(best_pos, best_inv2)]; [None] only when [fuel]
    runs out before the loop condition fails. *)
Fixpoint refine_loop (fuel : nat) (delta base best_inv : Z)
  : Tr (option (Z * Z)) :=
  match fuel with
  | O => ret None
  | S fuel' =>
      if delta <=? spb then
        r <- refine_inner 2 0 (base + delta);;
        match r with
        | Some found => ret (Some found)
        | None => refine_loop fuel' (delta + step2) base best_inv
        end
      else ret (Some (-1, best_inv))
  end.

Definition refine_fuel : nat := Z.to_nat (2 * spb + 2).

Definition refine (base best_inv : Z) : Tr (option (Z * Z)) :=
  refine_loop refine_fuel (- spb) base best_inv.

(** [((uint32_t)b0<<24) | ((uint32_t)b1<<16) | ((uint32_t)b2<<8) | b3] *)
Definition be32_of (b0 b1 b2 b3 : Z) : Z :=
  Z.lor (Z.lor (Z.lor (Z.shiftl b0 24) (Z.shiftl b1 16)) (Z.shiftl b2 8)) b3.

Definition be32 (bs : list Z) : Z :=
  be32_of (nth 0 bs 0) (nth 1 bs 0) (nth 2 bs 0) (nth 3 bs 0).

(** Lines 343-410: the frame is decoded from the refined position.  As
    in the source, no window is tested against the number of samples: a
    window that ends past the capture is logged like any other, and
    [in_bounds] of the trace then fails.  The C program reads outside its
    buffer there (undefined behaviour), so the result of a run is the
    program's only while its trace is [in_bounds]. *)
Definition decode_frame (best_pos invert : Z) : Tr (error + list Z) :=
  h <- decode_bytes 8 best_pos invert;;
  let '(hdr, pos) := h in
  if negb (is_magic (take 4 hdr)) then ret (inl MagicMismatch)
  else
    let clen := be32 (drop 4 hdr) in
    if (clen =? 0) || (clen >? 2000000) then ret (inl BadLen)
    else
      b <- decode_bytes (Z.to_nat clen) pos invert;;
      let '(body, pos) := b in
      let frame := hdr ++ body in
      c <- decode_bytes 4 pos invert;;
      let '(crc_bytes, pos) := c in
      let crc_stored := be32 crc_bytes in
      let crc_calc := Crc32.crc32_compute frame in
      if negb (crc_calc =? crc_stored) then ret (inl CrcMismatch)
      else
        match decrypt (drop 8 frame) with
        | None => ret (inl DecryptFailed)
        | Some plain => ret (inr plain)
        end.

(** [main]: the exit taken, with the plaintext printed on success.
    [None] only if a search loop ran out of fuel. *)
Definition main : Tr (option (error + list Z)) :=
  if n <=? 0 then ret (Some (inl IoError))
  else if spb <? 40 then ret (Some (inl ConfigError))
  else
    c <- coarse_search;;
    match c with
    | None => ret None
    | Some c =>
        if best_off c <? 0 then ret (Some (inl SyncNotFound))
        else
          let base := best_off c + pre_bits * spb in
          r <- refine base (best_inv c);;
          match r with
          | None => ret None
          | Some (best_pos, best_inv2) =>
              if best_pos <? 0 then ret (Some (inl MagicNotFound))
              else
                res <- decode_frame best_pos best_inv2;;
                ret (Some res)
          end
    end.

(** ** Values computed, without the trace *)

(** The bit detected in the symbol window at [start]. *)
Definition detected (start invert : Z) : Z :=
  fst (detect_bit_q start spb invert).

(** The data bit decoded from the [REP] symbols at [pos]. *)
Definition coded_bit (pos invert : Z) : Z :=
  fst (decode_coded_bit pos invert).

(** The bytes decoded from position [pos] on. *)
Definition bytes_at (k : nat) (pos invert : Z) : list Z :=
  fst (fst (decode_bytes k pos invert)).

(** Whether the four bytes decoded at [p] are "STEG". *)
Definition magic_at (c : Z * Z) : bool :=
  is_magic (bytes_at 4 (fst c) (snd c)).

(** The preamble score at [off]. *)
Definition score_at (off invert : Z) : Z :=
  fst (score_preamble off invert).

(** The best score after the offsets [offs], from [b]. *)
Definition best_from (b : Z) (offs : list Z) : Z :=
  fold_left (fun b off => Z.max (Z.max b (score_at off 0)) (score_at off 1))
            offs b.

(** The [k] consecutive symbol windows from [pos] on. *)
Definition symbol_windows (k : nat) (pos : Z) : list event :=
  map (fun j => EvWindow (pos + Z.of_nat j * spb) spb) (seq 0 k).

(** [if(s > best_score){ best_score=s; best_off=off; best_inv=inv; }] *)
Definition improve (st : coarse) (off inv s : Z) : coarse :=
  if s >? best_score st
  then {| best_off := off; best_inv := inv; best_score := s |}
  else st.

(** The [m] candidate offsets [off, off + step, ...]. *)
Definition offsets_from (off : Z) (m : nat) : list Z :=
  map (fun k => off + Z.of_nat k * step) (seq 0 m).

(** The guards of the refinement loop on [p = base + delta]. *)
Definition refine_guard (p : Z) : bool :=
  negb (p <? 0) && negb (p + 4 * REP * spb * 8 >=? n).

(** The [LEN] field of the header decoded at [pos]. *)
Definition header_len (pos invert : Z) : Z :=
  be32 (drop 4 (bytes_at 8 pos invert)).

(** The values of [delta] from [delta] up to [spb] in steps of
    [step2]. *)
Definition deltas_from (delta : Z) : list Z :=
  map (fun k => delta + Z.of_nat k * step2)
      (seq 0 (Z.to_nat ((spb - delta) / step2 + 1))).

(** The candidates [(p, inv_try)] in the order of the two loops:
    [delta] ascending and, for each [p = base + delta] that passes
    the guards, polarity 0 then polarity 1. *)
Definition candidates_from (base delta : Z) : list (Z * Z) :=
  flat_map (fun d => if refine_guard (base + d)
                     then [(base + d, 0); (base + d, 1)] else [])
           (deltas_from delta).

Definition refine_candidates (base : Z) : list (Z * Z) :=
  candidates_from base (- spb).

End Capture.

(** A list up to and including its first element satisfying [f]. *)
Fixpoint upto_first {A} (f : A -> bool) (l : list A) : list A :=
  match l with
  | [] => []
  | x :: r => if f x then [x] else x :: upto_first f r
  end.

(** Both polarities of an offset, in the order of the coarse loop. *)
Definition both (p : Z) : list (Z * Z) := [(p, 0); (p, 1)].

(** ** Projections of a trace *)

Definition windows (l : list event) : list (Z * Z) :=
  flat_map (fun e => match e with EvWindow s len => [(s, len)] | _ => [] end) l.

Definition scores (l : list event) : list (Z * Z) :=
  flat_map (fun e => match e with EvScore o i => [(o, i)] | _ => [] end) l.

Definition tries (l : list event) : list (Z * Z) :=
  flat_map (fun e => match e with EvTry p i => [(p, i)] | _ => [] end) l.

(** Every sample index read by the windows of a trace is an index of
    an array of [n] samples. *)
Definition in_bounds (n : Z) (l : list event) : Prop :=
  forall start len, In (start, len) (windows l) ->
    0 <= start /\ start + len <= n.

(** ** An idealised capture

    The detector answers with the symbol that covers the larger part of
    the window; outside the symbol stream it answers [false]. *)
Definition ideal_tone (syms : list Z) (start len : Z) : bool :=
  negb (nth (Z.to_nat ((start + len / 2) / len)) syms 0 =? 0).

(** The early-termination score in the specification's words:
    the ceiling of [0.93 * pre_bits]. *)
Definition stop_score_spec : Z := (93 * pre_bits + 99) / 100.

End Receiver.

(* ===================================================================== *)
(** * Captures used as concrete inputs                                    *)
(* ===================================================================== *)

Module Scenarios.
Import Params Receiver.

(** A capture in which the upper tone wins in no window, as for
    silence, where both energies are zero. *)
Definition low_tone : Z -> Z -> bool := fun _ _ => false.

(** The frame of the one-byte ciphertext [0x41] and its symbols. *)
Definition frameA : list Z := Sender.build_frame (fun _ => 0) [0x41].
Definition symsA : list Z := Sender.tx_symbols frameA.

(** The sender's symbols for [frameA], detected ideally. *)
Definition clean : Z -> Z -> bool := ideal_tone symsA.

(** The same with the two tones exchanged in every window. *)
Definition swapped : Z -> Z -> bool := fun s l => negb (ideal_tone symsA s l).

(** A preamble whose first seven symbols are detected wrongly: 93 of
    the 100 preamble bits match. *)
Definition syms93 : list Z :=
  map (fun b => if (b <? 7)%nat then 1 - Z.of_nat b mod 2 else Z.of_nat b mod 2)
      (seq 0 100).
Definition almost : Z -> Z -> bool := ideal_tone syms93.

(** The first 200 symbols of [symsA]: preamble, magic and four more
    symbols; the capture ends there. *)
Definition cut : Z -> Z -> bool := ideal_tone (take 200 symsA).

End Scenarios.

(* ===================================================================== *)
(** * Notions used to state further properties                            *)
(* ===================================================================== *)

Module Link.
Import Params Receiver.

(** The candidates of the refinement with the polarity of the coarse
    search tried first at every position. *)
Definition candidates_best_first (n fs base best_inv : Z) : list (Z * Z) :=
  flat_map (fun d => if refine_guard n fs (base + d)
                     then [(base + d, best_inv); (base + d, 1 - best_inv)]
                     else [])
           (deltas_from fs (- spb fs)).

(** The update of the coarse loop for one scored candidate
    [(off, inv)]. *)
Definition scan_step (n fs : Z) (tone : Z -> Z -> bool)
    (st : coarse) (c : Z * Z) : coarse :=
  improve st (fst c) (snd c) (score_at n fs tone (fst c) (snd c)).

(** Every symbol of [syms] is detected in its own window when read with
    polarity [flip]: symbol [j] occupies the samples from [j * spb]. *)
Definition detects (fs : Z) (tone : Z -> Z -> bool) (flip : Z)
    (syms : list Z) : Prop :=
  forall j, (j < length syms)%nat ->
    detected fs tone (Z.of_nat j * spb fs) flip = nth j syms 0.

(** A state of the coarse search that holds an offset and a polarity. *)
Definition locked (st : coarse) : Prop :=
  0 <= best_off st /\ (best_inv st = 0 \/ best_inv st = 1).


(** The symbols of the frame of the empty ciphertext, detected ideally. *)
Definition empty_syms : list Z :=
  Sender.tx_symbols (Sender.build_frame (fun _ => 0) []).
Definition empty_capture : Z -> Z -> bool := ideal_tone empty_syms.

End Link.

(* ===================================================================== *)
(** * Proofs: CRC-32                                                      *)
(* ===================================================================== *)

Section Crc32Proofs.
Import Crc32.

Lemma crc_shift_testbit c :
  crc_shift c = Z.lxor (Z.shiftr c 1) (if Z.testbit c 0 then poly else 0).
Proof.
  unfold crc_shift.
  replace (Z.land c 1) with (Z.b2z (Z.testbit c 0)).
  - destruct (Z.testbit c 0); simpl.
    + apply Z.lxor_comm.
    + now rewrite Z.lxor_0_r.
  - rewrite Z.bit0_mod. symmetry. apply (Z.land_ones c 1). lia.
Qed.

(** The shift register is linear over XOR for an even second operand. *)
Lemma crc_shift_lxor_even x h :
  Z.testbit h 0 = false ->
  crc_shift (Z.lxor x h) = Z.lxor (crc_shift x) (Z.shiftr h 1).
Proof.
  intros Hh. rewrite !crc_shift_testbit, Z.lxor_spec, Hh, xorb_false_r.
  rewrite Z.shiftr_lxor.
  rewrite !Z.lxor_assoc. f_equal. apply Z.lxor_comm.
Qed.

Lemma crc_iter_lxor_high k : forall x h,
  (forall i, 0 <= i < Z.of_nat k -> Z.testbit h i = false) ->
  Nat.iter k crc_shift (Z.lxor x h) =
  Z.lxor (Nat.iter k crc_shift x) (Z.shiftr h (Z.of_nat k)).
Proof.
  induction k as [|k IH]; intros x h Hlow.
  - simpl. now rewrite Z.shiftr_0_r.
  - rewrite !Nat.iter_succ_r.
    rewrite crc_shift_lxor_even by (apply Hlow; lia).
    rewrite IH.
    + f_equal. rewrite Z.shiftr_shiftr by lia. f_equal. lia.
    + intros i Hi. rewrite Z.shiftr_spec by lia. apply Hlow. lia.
Qed.

Lemma low_high_split x k :
  0 <= k ->
  x = Z.lxor (Z.land x (Z.ones k)) (Z.shiftl (Z.shiftr x k) k).
Proof.
  intros Hk. apply Z.bits_inj'. intros i Hi.
  rewrite Z.lxor_spec, Z.land_spec.
  destruct (Z_lt_ge_dec i k) as [Hlt|Hge].
  - rewrite Z.ones_spec_low, Z.shiftl_spec_low by lia.
    now rewrite andb_true_r, xorb_false_r.
  - rewrite Z.ones_spec_high, Z.shiftl_spec, Z.shiftr_spec by lia.
    rewrite andb_false_r. simpl. f_equal. lia.
Qed.

Lemma shiftl_low_bits x k i : 0 <= i < k -> Z.testbit (Z.shiftl x k) i = false.
Proof. intros Hi. apply Z.shiftl_spec_low. lia. Qed.

Lemma shiftr_shiftl_cancel x k : 0 <= k -> Z.shiftr (Z.shiftl x k) k = x.
Proof.
  intros Hk. rewrite Z.shiftr_shiftl_l by lia.
  replace (k - k) with 0 by lia. apply Z.shiftl_0_r.
Qed.

(** Eight rounds on a register only depend on its low byte, up to the
    high part shifted down. *)
Lemma crc_iter8_split x :
  Nat.iter 8 crc_shift x =
  Z.lxor (crc32_entry (Z.land x 0xFF)) (Z.shiftr x 8).
Proof.
  rewrite (low_high_split x 8) at 1 by lia.
  rewrite crc_iter_lxor_high.
  - change (Z.of_nat 8) with 8. rewrite shiftr_shiftl_cancel by lia.
    reflexivity.
  - intros i Hi. apply shiftl_low_bits. lia.
Qed.

Lemma crc32_table_init : crc32_table = crc32_init.
Proof. vm_compute. reflexivity. Qed.

Lemma crc32_table_length : length crc32_table = 256%nat.
Proof. reflexivity. Qed.

Lemma table_at_entry i : 0 <= i < 256 -> table_at i = crc32_entry i.
Proof.
  intros Hi.
  assert (Hall : forallb (fun k => table_at (Z.of_nat k) =? crc32_entry (Z.of_nat k))
                   (seq 0 256) = true) by (vm_compute; reflexivity).
  rewrite forallb_forall in Hall.
  specialize (Hall (Z.to_nat i)).
  rewrite Z2Nat.id in Hall by lia.
  apply Z.eqb_eq, Hall, in_seq. lia.
Qed.

Lemma land_255_range x : 0 <= Z.land x 0xFF < 256.
Proof.
  change 0xFF with (Z.ones 8). rewrite Z.land_ones by lia.
  apply Z.mod_pos_bound. lia.
Qed.

(** One table step is eight shift-register rounds on [c ^ d]. *)
Lemma crc32_update_iter c d :
  is_byte d ->
  crc32_update c d = Nat.iter 8 crc_shift (Z.lxor c d).
Proof.
  intros Hd. unfold crc32_update.
  rewrite crc_iter8_split, table_at_entry by apply land_255_range.
  f_equal. rewrite Z.shiftr_lxor.
  replace (Z.shiftr d 8) with 0; [now rewrite Z.lxor_0_r|].
  symmetry. rewrite Z.shiftr_div_pow2 by lia.
  apply Z.div_small. unfold is_byte in Hd. lia.
Qed.

Lemma crc_bit_step_shift c b :
  crc_bit_step c b = crc_shift (Z.lxor c (Z.b2z b)).
Proof.
  unfold crc_bit_step. rewrite crc_shift_testbit.
  rewrite Z.lxor_spec, Z.shiftr_lxor.
  replace (Z.testbit (Z.b2z b) 0) with b by (now destruct b).
  replace (Z.shiftr (Z.b2z b) 1) with 0 by (now destruct b).
  rewrite Z.lxor_0_r.
  destruct (xorb (Z.testbit c 0) b); [reflexivity|now rewrite Z.lxor_0_r].
Qed.

Lemma bit0_split d :
  d = Z.lxor (Z.b2z (Z.testbit d 0)) (Z.shiftl (Z.shiftr d 1) 1).
Proof.
  rewrite (low_high_split d 1) at 1 by lia. f_equal.
  rewrite Z.land_ones by lia. symmetry. apply Z.bit0_mod.
Qed.

(** Feeding the [k] low bits of [d], least significant first, to the
    bit-serial register is [k] rounds on the register XORed with [d]. *)
Lemma fold_bits_iter k : forall d c,
  0 <= d < 2 ^ Z.of_nat k ->
  fold_left crc_bit_step
    (map (fun i => Z.testbit d (Z.of_nat i)) (seq 0 k)) c =
  Nat.iter k crc_shift (Z.lxor c d).
Proof.
  induction k as [|k IH]; intros d c Hd.
  - simpl in *. replace d with 0 by lia. now rewrite Z.lxor_0_r.
  - rewrite Nat.iter_succ_r. cbn [seq map fold_left].
    rewrite <- seq_shift, map_map.
    rewrite (map_ext _ (fun i => Z.testbit (Z.shiftr d 1) (Z.of_nat i))).
    2:{ intros i. rewrite Z.shiftr_spec by lia. f_equal. lia. }
    rewrite IH.
    2:{ rewrite Z.shiftr_div_pow2 by lia. change (2 ^ 1) with 2.
        rewrite Nat2Z.inj_succ, Z.pow_succ_r in Hd by lia.
        split; [apply Z.div_pos; lia|].
        apply Z.div_lt_upper_bound; lia. }
    f_equal. rewrite crc_bit_step_shift. change (Z.of_nat 0) with 0.
    rewrite (bit0_split d) at 3.
    rewrite <- Z.lxor_assoc.
    rewrite (crc_shift_lxor_even (Z.lxor c (Z.b2z (Z.testbit d 0)))).
    + now rewrite shiftr_shiftl_cancel by lia.
    + apply shiftl_low_bits. lia.
Qed.

Lemma fold_byte_bits c d :
  is_byte d ->
  fold_left crc_bit_step (byte_bits_lsb d) c = crc32_update c d.
Proof.
  intros Hd. rewrite crc32_update_iter by assumption.
  apply (fold_bits_iter 8). exact Hd.
Qed.

Lemma fold_reference_table data : forall c,
  Forall is_byte data ->
  fold_left crc_bit_step (flat_map byte_bits_lsb data) c =
  fold_left crc32_update data c.
Proof.
  induction data as [|d data IH]; intros c Hb; [reflexivity|].
  apply Forall_cons_1 in Hb as [Hd Hb].
  cbn [flat_map fold_left]. rewrite fold_left_app, fold_byte_bits by assumption.
  now apply IH.
Qed.

(** The generated table is the table written by [crc32_init]: entry
    [i] is eight rounds of the reversed polynomial on [i]. *)
Lemma crc32_init_entries :
  crc32_init = map (fun i => crc32_entry (Z.of_nat i)) (seq 0 256).
Proof. vm_compute. reflexivity. Qed.

(** C7.  For every sequence of bytes, the table-driven [crc32_compute]
    (table built by [crc32_init] from the reversed polynomial
    0xEDB88320) equals the bit-at-a-time reference CRC-32: initial value
    0xFFFFFFFF, bits consumed least significant first, final XOR
    0xFFFFFFFF. *)
Theorem crc32_compute_eq_reference (data : list Z) :
  Forall is_byte data ->
  crc32_compute data = crc32_reference data.
Proof.
  intros Hb. unfold crc32_compute, crc32_reference.
  now rewrite fold_reference_table.
Qed.

Lemma lxor_u32 a b :
  0 <= a < 2 ^ 32 -> 0 <= b < 2 ^ 32 -> 0 <= Z.lxor a b < 2 ^ 32.
Proof.
  intros Ha Hb.
  assert (Hnn : 0 <= Z.lxor a b) by (apply Z.lxor_nonneg; lia).
  split; [exact Hnn|].
  destruct (Z.eq_dec (Z.lxor a b) 0) as [->|Hnz]; [lia|].
  apply Z.log2_lt_pow2; [lia|].
  pose proof (Z.log2_lxor a b ltac:(lia) ltac:(lia)) as Hlog.
  assert (Hla : Z.log2 a < 32).
  { destruct (Z.eq_dec a 0) as [->|]; [simpl; lia|apply Z.log2_lt_pow2; lia]. }
  assert (Hlb : Z.log2 b < 32).
  { destruct (Z.eq_dec b 0) as [->|]; [simpl; lia|apply Z.log2_lt_pow2; lia]. }
  lia.
Qed.

Lemma table_at_u32 i : 0 <= i < 256 -> 0 <= table_at i < 2 ^ 32.
Proof.
  intros Hi.
  assert (Hall : forallb (fun k => (0 <=? table_at (Z.of_nat k)) &&
                                   (table_at (Z.of_nat k) <? 2 ^ 32))
                   (seq 0 256) = true) by (vm_compute; reflexivity).
  rewrite forallb_forall in Hall.
  specialize (Hall (Z.to_nat i)). rewrite Z2Nat.id in Hall by lia.
  assert (Hin : In (Z.to_nat i) (seq 0 256)) by (apply in_seq; lia).
  apply Hall, andb_prop in Hin as [H0 H1]. lia.
Qed.

Lemma crc32_update_u32 c d : 0 <= c < 2 ^ 32 -> 0 <= crc32_update c d < 2 ^ 32.
Proof.
  intros Hc. unfold crc32_update. apply lxor_u32.
  - apply table_at_u32, land_255_range.
  - rewrite Z.shiftr_div_pow2 by lia. split.
    + apply Z.div_pos; lia.
    + apply Z.div_lt_upper_bound; lia.
Qed.

(** The result fits the [uint32_t] it is returned in. *)
Lemma crc32_compute_u32 data : 0 <= crc32_compute data < 2 ^ 32.
Proof.
  unfold crc32_compute. apply lxor_u32; [|lia].
  assert (H : forall c, 0 <= c < 2 ^ 32 ->
                0 <= fold_left crc32_update data c < 2 ^ 32).
  { induction data as [|d data IH]; intros c Hc; [exact Hc|].
    cbn [fold_left]. apply IH, crc32_update_u32, Hc. }
  apply H. lia.
Qed.

(** The check value of CRC-32 on the ASCII digits "123456789". *)
Lemma crc32_compute_eq_reference_witness :
  Forall is_byte [49; 50; 51; 52; 53; 54; 55; 56; 57] /\
  crc32_compute [49; 50; 51; 52; 53; 54; 55; 56; 57] =
  crc32_reference [49; 50; 51; 52; 53; 54; 55; 56; 57].
Proof.
  assert (H : Forall is_byte [49; 50; 51; 52; 53; 54; 55; 56; 57])
    by (repeat constructor; unfold is_byte; lia).
  split; [exact H|exact (crc32_compute_eq_reference _ H)].
Defined.

Example crc32_check_value :
  crc32_compute [49; 50; 51; 52; 53; 54; 55; 56; 57] = 0xCBF43926.
Proof. vm_compute. reflexivity. Qed.

End Crc32Proofs.

(* ===================================================================== *)
(** * Proofs: the sender's frame                                          *)
(* ===================================================================== *)

Section FrameProofs.
Import Params Sender.

Lemma land_shiftr_byte v k :
  0 <= k -> Z.land (Z.shiftr v k) 0xFF = v / 2 ^ k mod 256.
Proof.
  intros Hk. change 0xFF with (Z.ones 8).
  rewrite Z.land_ones, Z.shiftr_div_pow2 by lia. reflexivity.
Qed.

Lemma land_byte v : Z.land v 0xFF = v mod 256.
Proof. change 0xFF with (Z.ones 8). now rewrite Z.land_ones by lia. Qed.

Lemma memcpy_app {A} (src : list A) : forall pre mid post,
  length mid = length src ->
  memcpy (pre ++ mid ++ post) (length pre) src = pre ++ src ++ post.
Proof.
  induction src as [|b src IH]; intros pre mid post Hlen.
  - destruct mid; [reflexivity|discriminate].
  - destruct mid as [|m mid]; [discriminate|].
    cbn [memcpy]. injection Hlen as Hlen.
    replace (<[length pre := b]> (pre ++ (m :: mid) ++ post))
      with ((pre ++ [b]) ++ mid ++ post).
    + replace (S (length pre)) with (length (pre ++ [b]))
        by (rewrite length_app; simpl; lia).
      rewrite IH by assumption. now rewrite <- app_assoc.
    + rewrite insert_app_r_alt by lia.
      replace (length pre - length pre)%nat with 0%nat by lia.
      now rewrite <- app_assoc.
Qed.

Lemma malloc_split {A} (junk : nat -> A) (a b : nat) :
  malloc junk (Z.of_nat (a + b)) =
  map junk (seq 0 a) ++ map junk (seq a b).
Proof.
  unfold malloc. rewrite Nat2Z.id, seq_app, map_app. reflexivity.
Qed.

(** The block after the header stores and the [memcpy]. *)
Lemma frame_after_memcpy junk cipher :
  let clen := Z.of_nat (length cipher) in
  memcpy
    (<[7%nat := Z.land clen 0xFF]>
     (<[6%nat := Z.land (Z.shiftr clen 8) 0xFF]>
      (<[5%nat := Z.land (Z.shiftr clen 16) 0xFF]>
       (<[4%nat := Z.land (Z.shiftr clen 24) 0xFF]>
        (<[3%nat := 0x47]>
         (<[2%nat := 0x45]>
          (<[1%nat := 0x54]>
           (<[0%nat := 0x53]> (malloc junk (4 + 4 + clen + 4))))))))))
    8 cipher =
  (MAGIC ++ be32_bytes clen ++ cipher) ++
  map junk (seq (8 + length cipher) 4).
Proof.
  intros clen.
  replace (4 + 4 + clen + 4) with (Z.of_nat (8 + (length cipher + 4)))
    by (subst clen; lia).
  rewrite malloc_split, (seq_app (length cipher) 4 8), map_app.
  cbn [seq map app]. cbn [insert list_insert].
  rewrite !land_shiftr_byte, !land_byte by lia.
  change (memcpy ((MAGIC ++ be32_bytes clen) ++ map junk (seq 8 (length cipher)) ++
                  map junk (seq (8 + length cipher) 4))
                 (length (MAGIC ++ be32_bytes clen)) cipher =
          (MAGIC ++ be32_bytes clen ++ cipher) ++
          map junk (seq (8 + length cipher) 4)).
  rewrite memcpy_app by (now rewrite length_map, length_seq).
  now rewrite <- !app_assoc.
Qed.

(** The code's frame is the specified byte string, whatever the
    content of the fresh block. *)
Lemma build_frame_spec junk cipher :
  build_frame junk cipher = frame_spec cipher.
Proof.
  unfold build_frame, frame_spec. cbv zeta.
  rewrite frame_after_memcpy.
  set (covered := MAGIC ++ be32_bytes (Z.of_nat (length cipher)) ++ cipher).
  assert (Hlen : forall k, 0 <= k ->
            Z.to_nat (4 + 4 + Z.of_nat (length cipher) + k)
            = (length covered + Z.to_nat k)%nat).
  { intros k Hk. subst covered. rewrite !length_app. simpl. lia. }
  replace (Z.to_nat (4 + 4 + Z.of_nat (length cipher))) with (length covered)
    by (subst covered; rewrite !length_app; simpl; lia).
  rewrite take_app_length.
  rewrite !Hlen by lia.
  rewrite !insert_app_r. cbn [seq map insert list_insert].
  rewrite !land_shiftr_byte, land_byte by lia.
  reflexivity.
Qed.

Lemma testbit_byte_field x k i :
  0 <= k -> 0 <= i ->
  Z.testbit (Z.shiftl (Z.land (Z.shiftr x k) (Z.ones 8)) k) i =
  (k <=? i) && (i <? k + 8) && Z.testbit x i.
Proof.
  intros Hk Hi.
  destruct (Z.leb_spec k i) as [Hle|Hlt]; simpl.
  - rewrite Z.shiftl_spec, Z.land_spec, Z.shiftr_spec by lia.
    replace (i - k + k) with i by lia.
    destruct (Z.ltb_spec i (k + 8)); simpl.
    + rewrite Z.ones_spec_low by lia. apply andb_true_r.
    + rewrite Z.ones_spec_high by lia. apply andb_false_r.
  - apply Z.shiftl_spec_low. lia.
Qed.

Lemma testbit_high_zero v i :
  0 <= v < 2 ^ 32 -> 32 <= i -> Z.testbit v i = false.
Proof.
  intros Hv Hi.
  destruct (Z.eq_dec v 0) as [->|Hnz]; [apply Z.testbit_0_l|].
  apply Z.bits_above_log2; [lia|].
  apply Z.lt_le_trans with 32; [|lia].
  apply Z.log2_lt_pow2; lia.
Qed.

(** The receiver's big-endian read inverts the sender's split. *)
Lemma be32_bytes_decode v :
  0 <= v < 2 ^ 32 -> Receiver.be32 (be32_bytes v) = v.
Proof.
  intros Hv. unfold Receiver.be32, Receiver.be32_of, be32_bytes. cbn [nth].
  rewrite <- (land_shiftr_byte v 24), <- (land_shiftr_byte v 16),
    <- (land_shiftr_byte v 8), <- (land_byte v) by lia.
  change 0xFF with (Z.ones 8).
  replace (Z.land v (Z.ones 8))
    with (Z.shiftl (Z.land (Z.shiftr v 0) (Z.ones 8)) 0)
    by (now rewrite Z.shiftl_0_r, Z.shiftr_0_r).
  apply Z.bits_inj'. intros i Hi.
  rewrite !Z.lor_spec, !testbit_byte_field by lia.
  pose proof (testbit_high_zero v i Hv) as Hhigh.
  destruct (Z.leb_spec 24 i), (Z.leb_spec 16 i), (Z.leb_spec 8 i),
    (Z.leb_spec 0 i), (Z.ltb_spec i (24 + 8)), (Z.ltb_spec i (16 + 8)),
    (Z.ltb_spec i (8 + 8)), (Z.ltb_spec i (0 + 8));
    simpl; rewrite ?orb_false_r; try reflexivity; try lia.
  symmetry. apply Hhigh. lia.
Qed.

(** C5.  For every ciphertext [C] of length [L] (an [int], so
    [L < 2^31]) the sender's frame is 'S','T','E','G', then [L] as four
    big-endian bytes (which the receiver reads back as [L]), then the
    [L] bytes of [C], then the big-endian CRC-32 of the preceding
    [8 + L] bytes (read back as that CRC); for [L = 2] it is
    53 54 45 47 00 00 00 02 C[0] C[1] crc[0] crc[1] crc[2] crc[3]. *)
Theorem frame_wire_format (junk : nat -> Z) (cipher : list Z) :
  Z.of_nat (length cipher) < 2 ^ 31 ->
  let L := Z.of_nat (length cipher) in
  let covered := [0x53; 0x54; 0x45; 0x47] ++ be32_bytes L ++ cipher in
  let crc := Crc32.crc32_compute covered in
  build_frame junk cipher = covered ++ be32_bytes crc /\
  Z.of_nat (length covered) = 8 + L /\
  Receiver.be32 (be32_bytes L) = L /\
  Receiver.be32 (be32_bytes crc) = crc /\
  (forall c0 c1, cipher = [c0; c1] ->
     build_frame junk cipher =
     [0x53; 0x54; 0x45; 0x47; 0; 0; 0; 2; c0; c1] ++
     be32_bytes (Crc32.crc32_compute [0x53; 0x54; 0x45; 0x47; 0; 0; 0; 2; c0; c1])).
Proof.
  intros HL L covered crc. splits.
  - apply build_frame_spec.
  - subst covered. rewrite !length_app. simpl. lia.
  - apply be32_bytes_decode. lia.
  - apply be32_bytes_decode, crc32_compute_u32.
  - intros c0 c1 ->. now rewrite build_frame_spec.
Qed.

(** C5 at the two-byte ciphertext AB CD. *)
Lemma frame_wire_format_witness :
  Z.of_nat (length [0xAB; 0xCD]) < 2 ^ 31 /\
  build_frame (fun _ => 0) [0xAB; 0xCD] =
  [0x53; 0x54; 0x45; 0x47; 0; 0; 0; 2; 0xAB; 0xCD] ++
  be32_bytes (Crc32.crc32_compute [0x53; 0x54; 0x45; 0x47; 0; 0; 0; 2; 0xAB; 0xCD]).
Proof.
  assert (H : Z.of_nat (length [0xAB; 0xCD]) < 2 ^ 31) by (simpl; lia).
  split; [exact H|].
  exact (proj2 (proj2 (proj2 (proj2
           (frame_wire_format (fun _ => 0) [0xAB; 0xCD] H)))) 0xAB 0xCD eq_refl).
Defined.

End FrameProofs.

(* ===================================================================== *)
(** * Proofs: the modulator                                               *)
(* ===================================================================== *)

Section ModulatorProofs.
Import Params Sender.
Context {sample : Type}.
Variable synth : Z -> Z -> Z -> sample.
Variable spb : Z.
Hypothesis spb_nonneg : 0 <= spb.

Lemma render_symbol_length bit si0 :
  Z.of_nat (length (render_symbol synth spb bit si0)) = spb.
Proof. unfold render_symbol. rewrite length_map, length_seq. lia. Qed.

Lemma render_length syms : forall si0,
  length (render synth spb syms si0) = (length syms * Z.to_nat spb)%nat.
Proof.
  induction syms as [|bit syms IH]; intros si0; [reflexivity|].
  cbn [render]. rewrite length_app, IH.
  pose proof (render_symbol_length bit si0). simpl. lia.
Qed.

(** The sample loop fills the next [k] cells of the buffer. *)
Lemma emit_symbol_written k : forall s bit w rest,
  (k <= length rest)%nat ->
  emit_symbol synth k s bit (w ++ rest, Z.of_nat (length w)) =
  ((w ++ map (fun j => synth bit (s + Z.of_nat j)
                         (Z.of_nat (length w) + Z.of_nat j)) (seq 0 k))
     ++ drop k rest,
   Z.of_nat (length w) + Z.of_nat k).
Proof.
  induction k as [|k IH]; intros s bit w rest Hk.
  - simpl. rewrite app_nil_r, drop_0. f_equal. lia.
  - destruct rest as [|r rest]; [simpl in Hk; lia|].
    cbn [emit_symbol]. rewrite Nat2Z.id.
    rewrite insert_app_r_alt by lia.
    replace (length w - length w)%nat with 0%nat by lia.
    cbn [insert list_insert].
    set (v := synth bit s (Z.of_nat (length w))).
    replace (w ++ v :: rest) with ((w ++ [v]) ++ rest)
      by (now rewrite <- app_assoc).
    replace (Z.of_nat (length w) + 1) with (Z.of_nat (length (w ++ [v])))
      by (rewrite length_app; simpl; lia).
    rewrite IH by (simpl in Hk; lia).
    rewrite length_app. cbn [length drop seq map].
    rewrite <- seq_shift, map_map.
    f_equal; [|lia].
    rewrite <- !app_assoc. cbn [app]. do 2 f_equal.
    + subst v. f_equal; lia.
    + f_equal. apply map_ext. intros j. f_equal; lia.
Qed.

Lemma emit_one_symbol bit w rest :
  (Z.to_nat spb <= length rest)%nat ->
  emit_symbol synth (Z.to_nat spb) 0 bit (w ++ rest, Z.of_nat (length w)) =
  ((w ++ render_symbol synth spb bit (Z.of_nat (length w)))
     ++ drop (Z.to_nat spb) rest,
   Z.of_nat (length (w ++ render_symbol synth spb bit (Z.of_nat (length w))))).
Proof.
  intros Hk. rewrite emit_symbol_written by assumption.
  unfold render_symbol. f_equal.
  rewrite length_app, length_map, length_seq. lia.
Qed.

(** Emitting a list of symbols appends their rendering. *)
Lemma emit_symbols_written syms : forall w rest,
  (length syms * Z.to_nat spb <= length rest)%nat ->
  emit_symbols synth spb syms (w ++ rest, Z.of_nat (length w)) =
  ((w ++ render synth spb syms (Z.of_nat (length w)))
     ++ drop (length syms * Z.to_nat spb) rest,
   Z.of_nat (length w) + Z.of_nat (length syms) * spb).
Proof.
  induction syms as [|bit syms IH]; intros w rest Hroom.
  - simpl. rewrite app_nil_r, drop_0. f_equal. lia.
  - unfold emit_symbols in *. cbn [fold_left length] in *.
    rewrite emit_one_symbol by lia.
    rewrite IH by (rewrite length_drop; lia).
    rewrite drop_drop. cbn [render].
    rewrite length_app.
    pose proof (render_symbol_length bit (Z.of_nat (length w))) as Hl.
    f_equal; [|lia].
    rewrite <- !app_assoc. repeat (f_equal; try lia).
Qed.

Lemma emit_symbols_app a b st :
  emit_symbols synth spb (a ++ b) st =
  emit_symbols synth spb b (emit_symbols synth spb a st).
Proof. unfold emit_symbols. apply fold_left_app. Qed.

Lemma preamble_loop_symbols k : forall b st,
  0 <= b ->
  preamble_loop synth spb k b st =
  emit_symbols synth spb
    (map (fun j => (b + Z.of_nat j) mod 2) (seq 0 k)) st.
Proof.
  induction k as [|k IH]; intros b st Hb; [reflexivity|].
  cbn [preamble_loop seq map]. rewrite IH by lia.
  rewrite <- seq_shift, map_map.
  unfold emit_symbols. cbn [fold_left].
  replace (if Z.land b 1 =? 0 then 0 else 1) with ((b + Z.of_nat 0) mod 2).
  - f_equal. apply map_ext. intros j. f_equal. lia.
  - change 1 with (Z.ones 1) at 1. rewrite Z.land_ones by lia.
    change (2 ^ 1) with 2. replace (b + Z.of_nat 0) with b by lia.
    pose proof (Z.mod_pos_bound b 2 ltac:(lia)).
    destruct (Z.eqb_spec (b mod 2) 0); lia.
Qed.

Lemma rep_loop_symbols k : forall bit st,
  rep_loop synth spb k bit st = emit_symbols synth spb (replicate k bit) st.
Proof.
  induction k as [|k IH]; intros bit st; [reflexivity|].
  cbn [rep_loop replicate]. now rewrite IH.
Qed.

Lemma bit_loop_symbols byte st :
  bit_loop synth spb 8 byte st =
  emit_symbols synth spb
    (flat_map (fun bit => replicate (Z.to_nat REP) bit) (byte_bits_msb byte)) st.
Proof.
  unfold byte_bits_msb. cbn [bit_loop seq map flat_map].
  rewrite !emit_symbols_app, !rep_loop_symbols. reflexivity.
Qed.

Lemma byte_loop_symbols frame : forall st,
  byte_loop synth spb frame st =
  emit_symbols synth spb
    (flat_map (fun byte =>
                 flat_map (fun bit => replicate (Z.to_nat REP) bit)
                          (byte_bits_msb byte)) frame) st.
Proof.
  induction frame as [|byte frame IH]; intros st; [reflexivity|].
  cbn [byte_loop flat_map].
  now rewrite emit_symbols_app, IH, bit_loop_symbols.
Qed.

Lemma tx_symbols_length frame :
  Z.of_nat (length (tx_symbols frame)) =
  pre_bits + 8 * REP * Z.of_nat (length frame).
Proof.
  unfold tx_symbols. rewrite length_app, length_map, length_seq.
  assert (H : length (flat_map
              (fun byte => flat_map (fun bit => replicate (Z.to_nat REP) bit)
                                    (byte_bits_msb byte)) frame)
              = (24 * length frame)%nat).
  { induction frame as [|byte frame IH]; [reflexivity|].
    cbn [flat_map]. rewrite length_app, IH. simpl. lia. }
  rewrite H. unfold REP. change (Z.to_nat pre_bits) with 100%nat.
  change pre_bits with 100. lia.
Qed.

Lemma modulate_symbols junk frame :
  modulate synth spb junk frame =
  (render synth spb (tx_symbols frame) 0,
   (pre_bits + 8 * REP * Z.of_nat (length frame)) * spb).
Proof.
  unfold modulate. cbv zeta.
  rewrite preamble_loop_symbols, byte_loop_symbols by lia.
  rewrite <- emit_symbols_app.
  change (map (fun j => (0 + Z.of_nat j) mod 2) (seq 0 (Z.to_nat pre_bits)) ++
          flat_map (fun byte =>
                      flat_map (fun bit => replicate (Z.to_nat REP) bit)
                               (byte_bits_msb byte)) frame)
    with (tx_symbols frame).
  pose proof (tx_symbols_length frame) as Hlen.
  set (buf := malloc junk _).
  assert (Hbuf : length buf = (length (tx_symbols frame) * Z.to_nat spb)%nat).
  { subst buf. unfold malloc. rewrite length_map, length_seq. nia. }
  change (buf, 0) with ([] ++ buf, Z.of_nat (length (@nil sample))).
  rewrite emit_symbols_written by lia.
  rewrite <- Hbuf, drop_all, app_nil_r. cbn [app length].
  f_equal. rewrite Hlen. lia.
Qed.

End ModulatorProofs.

(** C6.  For every frame of [frame_bytes] bytes and every [spb] accepted
    by the sender ([spb >= 40]), the modulator emits exactly
    [pre_bits + 8 * REP * frame_bytes] symbols, each of exactly [spb]
    samples: the buffer written to the file is the concatenation of the
    renderings of these symbols, has
    [(pre_bits + 8 * REP * frame_bytes) * spb] samples, and the running
    index [si] ends at that number. *)
Theorem modulator_output_length {sample : Type}
    (synth : Z -> Z -> Z -> sample) (spb : Z)
    (junk : nat -> sample) (frame : list Z) :
  40 <= spb ->
  let frame_bytes := Z.of_nat (length frame) in
  let symbols := Params.pre_bits + 8 * Params.REP * frame_bytes in
  let '(buf, si) := Sender.modulate synth spb junk frame in
  Z.of_nat (length (Sender.tx_symbols frame)) = symbols /\
  (forall bit si0,
     Z.of_nat (length (Sender.render_symbol synth spb bit si0)) = spb) /\
  buf = Sender.render synth spb (Sender.tx_symbols frame) 0 /\
  Z.of_nat (length buf) = symbols * spb /\
  si = symbols * spb.
Proof.
  intros Hspb frame_bytes symbols.
  rewrite modulate_symbols by lia.
  pose proof (tx_symbols_length frame) as Hlen.
  repeat split.
  - exact Hlen.
  - intros bit si0. apply render_symbol_length. lia.
  - rewrite render_length by lia. subst symbols frame_bytes. nia.
Qed.

(** The sender as a whole: when its buffers and its output file are
    granted and the cipher succeeds, the frame is the specified byte
    string and the file holds the rendering of its symbols at 662 samples
    per symbol. *)
Lemma sender_main_written {sample : Type}
    (encrypt : list Z -> option (list Z)) (synth : Z -> Z -> Z -> sample)
    (junk_frame : nat -> Z) (junk_buf : nat -> sample) (msg cipher : list Z) :
  encrypt msg = Some cipher ->
  Sender.main {| Sender.cipher_alloc := true; Sender.frame_alloc := true;
                 Sender.out_open := true; Sender.buf_alloc := true |}
              encrypt synth junk_frame junk_buf msg =
  Sender.Written (Sender.frame_spec cipher)
    (Sender.render synth 662 (Sender.tx_symbols (Sender.frame_spec cipher)) 0).
Proof.
  intros Henc. unfold Sender.main. cbn [Sender.cipher_alloc Sender.frame_alloc
    Sender.out_open Sender.buf_alloc negb]. rewrite Henc.
  change (Params.spb_of_fs Sender.SAMPLE_RATE) with 662.
  change (662 <? 40) with false. cbv iota.
  rewrite modulate_symbols by lia. now rewrite build_frame_spec.
Qed.

(** C6 at the sender's 662 samples per symbol and a 13-byte frame:
    412 symbols, 272744 samples. *)
Lemma modulator_output_length_witness :
  40 <= 662 /\
  let '(buf, si) :=
    Sender.modulate (fun bit s si => (bit, s, si)) 662 (fun _ => (0, 0, 0))
      [0x53; 0x54; 0x45; 0x47; 0; 0; 0; 1; 65; 96; 20; 180; 108] in
  Z.of_nat (length buf) = (100 + 8 * 3 * 13) * 662 /\ si = 272744.
Proof.
  split; [lia|].
  pose proof (modulator_output_length (fun bit s si => (bit, s, si)) 662
                (fun _ => (0, 0, 0))
                [0x53; 0x54; 0x45; 0x47; 0; 0; 0; 1; 65; 96; 20; 180; 108]
                ltac:(lia)) as H.
  cbv zeta in H.
  destruct (Sender.modulate _ _ _ _) as [buf si].
  destruct H as (_ & _ & _ & Hlen & Hsi).
  split; [exact Hlen|exact Hsi].
Defined.

(* ===================================================================== *)
(** * Proofs: the receiver's bit and byte decoders                        *)
(* ===================================================================== *)

Section DecoderProofs.
Import Params Receiver.
Variables (fs : Z) (tone : Z -> Z -> bool).

Local Abbreviation spb := (Receiver.spb fs).

Lemma fst_bind {A B} (m : Tr A) (f : A -> Tr B) :
  fst (bind m f) = fst (f (fst m)).
Proof. unfold bind. destruct m as [a l1]. simpl. now destruct (f a). Qed.

Lemma snd_bind {A B} (m : Tr A) (f : A -> Tr B) :
  snd (bind m f) = snd m ++ snd (f (fst m)).
Proof. unfold bind. destruct m as [a l1]. simpl. now destruct (f a). Qed.

Lemma detect_bit_q_trace start len invert :
  snd (detect_bit_q tone start len invert) = [EvWindow start len].
Proof. reflexivity. Qed.

Lemma detected_bit start invert :
  detected fs tone start invert = 0 \/ detected fs tone start invert = 1.
Proof.
  unfold detected, detect_bit_q. simpl.
  destruct (tone start spb), (invert =? 0); simpl; auto.
Qed.

Lemma coded_loop_value k : forall r ones pos invert,
  fst (decode_coded_bit_loop fs tone k r ones pos invert) =
  ones + fold_right Z.add 0
           (map (fun j => detected fs tone (pos + (r + Z.of_nat j) * spb) invert)
                (seq 0 k)).
Proof.
  induction k as [|k IH]; intros r ones pos invert.
  - simpl. lia.
  - cbn [decode_coded_bit_loop]. rewrite fst_bind, IH.
    cbn [seq map fold_right]. rewrite <- seq_shift, map_map.
    replace (r + Z.of_nat 0) with r by lia.
    fold (detected fs tone (pos + r * spb) invert).
    rewrite (map_ext (fun j => detected fs tone (pos + (r + 1 + Z.of_nat j) * spb) invert)
                     (fun j => detected fs tone (pos + (r + Z.of_nat (S j)) * spb) invert)).
    + lia.
    + intros j. do 2 f_equal. lia.
Qed.

Lemma coded_loop_trace k : forall r ones pos invert,
  snd (decode_coded_bit_loop fs tone k r ones pos invert) =
  symbol_windows fs k (pos + r * spb).
Proof.
  induction k as [|k IH]; intros r ones pos invert; [reflexivity|].
  cbn [decode_coded_bit_loop]. rewrite snd_bind, IH, detect_bit_q_trace.
  unfold symbol_windows. cbn [seq map app]. rewrite <- seq_shift, map_map.
  f_equal; [f_equal; lia|].
  apply map_ext. intros j. f_equal. lia.
Qed.

Lemma coded_bit_trace pos invert :
  snd (decode_coded_bit fs tone pos invert) =
  symbol_windows fs (Z.to_nat REP) pos.
Proof.
  unfold decode_coded_bit. rewrite snd_bind, coded_loop_trace.
  unfold ret. cbn [snd]. rewrite app_nil_r. f_equal. lia.
Qed.

Lemma coded_bit_value pos invert :
  coded_bit fs tone pos invert =
  if fold_right Z.add 0
       (map (fun r => detected fs tone (pos + Z.of_nat r * spb) invert)
            (seq 0 (Z.to_nat REP))) >? REP / 2
  then 1 else 0.
Proof.
  unfold coded_bit, decode_coded_bit. rewrite fst_bind, coded_loop_value.
  reflexivity.
Qed.

Lemma coded_bit_01 pos invert :
  coded_bit fs tone pos invert = 0 \/ coded_bit fs tone pos invert = 1.
Proof. rewrite coded_bit_value. destruct (_ >? _); auto. Qed.

Lemma seq_add_map a b : seq (0 + a) b = map (Nat.add a) (seq 0 b).
Proof.
  induction a as [|a IH]; simpl.
  - symmetry. apply map_id.
  - rewrite <- seq_shift. simpl in IH. rewrite IH, map_map. reflexivity.
Qed.

Lemma symbol_windows_app a b pos :
  symbol_windows fs (a + b) pos =
  symbol_windows fs a pos ++ symbol_windows fs b (pos + Z.of_nat a * spb).
Proof.
  unfold symbol_windows. rewrite seq_app, map_app. f_equal.
  replace (seq (0 + a) b) with (map (Nat.add a) (seq 0 b)).
  - rewrite map_map. apply map_ext. intros j. f_equal. lia.
  - symmetry. apply seq_add_map.
Qed.

(** Appending a bit to a value below 128 in a [uint8_t]. *)
Lemma shift_in_bit v b :
  0 <= v < 128 -> b = 0 \/ b = 1 ->
  Z.lor (Z.shiftl v 1) (Z.land b 1) mod 256 = 2 * v + b.
Proof.
  intros Hv Hb.
  assert (Hland : Z.land b 1 = b) by (destruct Hb; subst; reflexivity).
  rewrite Hland, Z.shiftl_mul_pow2 by lia. change (2 ^ 1) with 2.
  assert (Hz : Z.land (v * 2) b = 0).
  { destruct Hb; subst b; [apply Z.land_0_r|].
    change 1 with (Z.ones 1). rewrite Z.land_ones by lia.
    change (2 ^ 1) with 2. apply Z.mod_mul. lia. }
  assert (Hor : Z.lor (v * 2) b = v * 2 + b).
  { now rewrite <- Z.lxor_lor, <- Z.add_nocarry_lxor by exact Hz. }
  rewrite Hor, Z.mod_small by (destruct Hb; lia). lia.
Qed.

End DecoderProofs.

Section ByteProofs.
Import Params Receiver.
Variables (fs : Z) (tone : Z -> Z -> bool).

Local Abbreviation spb := (Receiver.spb fs).

(** The byte loop: value by Horner's rule on the decoded bits, cursor
    advanced by [REP * spb] per bit. *)
Lemma byte_loop_value k : forall v pos invert,
  0 <= v -> (v + 1) * 2 ^ Z.of_nat k <= 256 ->
  fst (decode_byte_loop fs tone k v pos invert) =
  (fold_left (fun v b => 2 * v + b)
     (map (fun j => coded_bit fs tone (pos + Z.of_nat j * (REP * spb)) invert)
          (seq 0 k)) v,
   pos + Z.of_nat k * (REP * spb)).
Proof.
  induction k as [|k IH]; intros v pos invert Hv Hk.
  - simpl. f_equal. lia.
  - rewrite Nat2Z.inj_succ, Z.pow_succ_r in Hk by lia.
    pose proof (coded_bit_01 fs tone pos invert) as Hb.
    assert (0 < 2 ^ Z.of_nat k) by (apply Z.pow_pos_nonneg; lia).
    cbn [decode_byte_loop]. rewrite fst_bind.
    fold (coded_bit fs tone pos invert).
    rewrite shift_in_bit by (try assumption; nia).
    rewrite IH by (destruct Hb as [-> | ->]; nia).
    cbn [seq map fold_left]. rewrite <- seq_shift, map_map.
    replace (pos + Z.of_nat 0 * (REP * spb)) with pos by lia.
    f_equal; [|lia].
    f_equal. apply map_ext. intros j. f_equal. lia.
Qed.

Lemma byte_loop_trace k : forall v pos invert,
  snd (decode_byte_loop fs tone k v pos invert) =
  symbol_windows fs (k * Z.to_nat REP) pos.
Proof.
  induction k as [|k IH]; intros v pos invert; [reflexivity|].
  cbn [decode_byte_loop]. rewrite snd_bind, IH, coded_bit_trace.
  replace (S k * Z.to_nat REP)%nat with (Z.to_nat REP + k * Z.to_nat REP)%nat by lia.
  rewrite symbol_windows_app. f_equal; f_equal; unfold REP; lia.
Qed.

Lemma decode_byte_value pos invert :
  fst (decode_byte fs tone pos invert) =
  (fold_left (fun v b => 2 * v + b)
     (map (fun j => coded_bit fs tone (pos + Z.of_nat j * (REP * spb)) invert)
          (seq 0 8)) 0,
   pos + 8 * REP * spb).
Proof.
  unfold decode_byte. rewrite byte_loop_value by lia. f_equal. lia.
Qed.

Lemma decode_byte_trace pos invert :
  snd (decode_byte fs tone pos invert) = symbol_windows fs 24 pos.
Proof. unfold decode_byte. now rewrite byte_loop_trace. Qed.

Lemma decode_bytes_pos k : forall pos invert,
  snd (fst (decode_bytes fs tone k pos invert)) =
  pos + Z.of_nat k * (8 * REP * spb).
Proof.
  induction k as [|k IH]; intros pos invert; [simpl; lia|].
  cbn [decode_bytes]. rewrite fst_bind.
  pose proof (decode_byte_value pos invert) as Hb.
  destruct (fst (decode_byte fs tone pos invert)) as [v pos1].
  injection Hb as _ Hp.
  rewrite fst_bind.
  specialize (IH pos1 invert).
  destruct (fst (decode_bytes fs tone k pos1 invert)) as [vs pos2].
  simpl in *. lia.
Qed.

Lemma decode_bytes_length k : forall pos invert,
  length (bytes_at fs tone k pos invert) = k.
Proof.
  unfold bytes_at.
  induction k as [|k IH]; intros pos invert; [reflexivity|].
  cbn [decode_bytes]. rewrite fst_bind.
  destruct (fst (decode_byte fs tone pos invert)) as [v pos1].
  rewrite fst_bind. specialize (IH pos1 invert).
  destruct (fst (decode_bytes fs tone k pos1 invert)) as [vs pos2].
  simpl in *. now rewrite IH.
Qed.

Lemma decode_bytes_trace k : forall pos invert,
  snd (decode_bytes fs tone k pos invert) = symbol_windows fs (k * 24) pos.
Proof.
  induction k as [|k IH]; intros pos invert; [reflexivity|].
  cbn [decode_bytes]. rewrite snd_bind, decode_byte_trace.
  pose proof (decode_byte_value pos invert) as Hb.
  destruct (fst (decode_byte fs tone pos invert)) as [v pos1].
  injection Hb as _ Hp.
  rewrite snd_bind, IH.
  destruct (fst (decode_bytes fs tone k pos1 invert)) as [vs pos2].
  unfold ret. cbn [snd]. rewrite app_nil_r.
  replace (S k * 24)%nat with (24 + k * 24)%nat by lia.
  rewrite symbol_windows_app. f_equal; f_equal; subst pos1; unfold REP; lia.
Qed.

(** Bytes decoded in one run are those of two consecutive runs. *)
Lemma bytes_at_app a b pos invert :
  bytes_at fs tone (a + b) pos invert =
  bytes_at fs tone a pos invert ++
  bytes_at fs tone b (pos + Z.of_nat a * (8 * REP * spb)) invert.
Proof.
  unfold bytes_at. revert pos.
  induction a as [|a IH]; intros pos.
  - simpl. f_equal. f_equal. f_equal. lia.
  - cbn [Nat.add decode_bytes]. rewrite !fst_bind.
    pose proof (decode_byte_value pos invert) as Hb.
    destruct (fst (decode_byte fs tone pos invert)) as [v pos1].
    injection Hb as _ Hp.
    rewrite !fst_bind. specialize (IH pos1).
    destruct (fst (decode_bytes fs tone (a + b) pos1 invert)) as [vs pos2].
    destruct (fst (decode_bytes fs tone a pos1 invert)) as [vs1 pos3].
    simpl in *. rewrite IH.
    replace (pos + Z.of_nat (S a) * (8 * REP * spb))
      with (pos1 + Z.of_nat a * (8 * REP * spb)) by lia.
    reflexivity.
Qed.

End ByteProofs.

(** C8.  At every stream position and for every capture, a data bit is
    decoded from the bits detected in [REP] consecutive symbols and is 1
    iff the number of detected ones is strictly greater than [REP / 2]
    (integer division; with [REP = 3], at least two of three); a byte is
    the 8 data bits at distances [REP * spb], most significant first; and
    decoding a byte reads the [8 * REP] symbol windows from the cursor on
    and advances the cursor by exactly [8 * REP * spb] samples, whatever
    the samples are. *)
Theorem repetition_byte_decode (fs : Z) (tone : Z -> Z -> bool) (pos invert : Z) :
  let spb := Receiver.spb fs in
  let REP := Params.REP in
  let ones p :=
    fold_right Z.add 0
      (map (fun r => Receiver.detected fs tone (p + Z.of_nat r * spb) invert)
           (seq 0 (Z.to_nat REP))) in
  (forall p, Receiver.coded_bit fs tone p invert =
             if ones p >? REP / 2 then 1 else 0) /\
  (forall p, Receiver.coded_bit fs tone p invert = 1 <-> 2 <= ones p) /\
  fst (fst (Receiver.decode_byte fs tone pos invert)) =
    fold_left (fun v b => 2 * v + b)
      (map (fun k => Receiver.coded_bit fs tone (pos + Z.of_nat k * (REP * spb)) invert)
           (seq 0 8)) 0 /\
  snd (fst (Receiver.decode_byte fs tone pos invert)) = pos + 8 * REP * spb /\
  snd (Receiver.decode_byte fs tone pos invert) =
    Receiver.symbol_windows fs (8 * Z.to_nat REP) pos.
Proof.
  intros spb REP ones. repeat split.
  - intros p. apply coded_bit_value.
  - rewrite coded_bit_value. fold spb REP. fold (ones p).
    change (REP / 2) with 1. destruct (Z.gtb_spec (ones p) 1); [lia|discriminate].
  - rewrite coded_bit_value. fold spb REP. fold (ones p).
    change (REP / 2) with 1. destruct (Z.gtb_spec (ones p) 1); [reflexivity|lia].
  - now rewrite decode_byte_value.
  - now rewrite decode_byte_value.
  - apply decode_byte_trace.
Qed.

(* ===================================================================== *)
(** * Proofs: the coarse preamble search                                  *)
(* ===================================================================== *)

Section TraceLemmas.
Import Receiver.

Lemma scores_app l1 l2 : scores (l1 ++ l2) = scores l1 ++ scores l2.
Proof. apply flat_map_app. Qed.

Lemma tries_app l1 l2 : tries (l1 ++ l2) = tries l1 ++ tries l2.
Proof. apply flat_map_app. Qed.

Lemma windows_app l1 l2 : windows (l1 ++ l2) = windows l1 ++ windows l2.
Proof. apply flat_map_app. Qed.

Lemma scores_symbol_windows fs k pos : scores (symbol_windows fs k pos) = [].
Proof.
  unfold symbol_windows. generalize (seq 0 k) as js.
  induction js as [|j js IH]; [reflexivity|exact IH].
Qed.

Lemma tries_symbol_windows fs k pos : tries (symbol_windows fs k pos) = [].
Proof.
  unfold symbol_windows. generalize (seq 0 k) as js.
  induction js as [|j js IH]; [reflexivity|exact IH].
Qed.

Lemma windows_symbol_windows fs k pos :
  windows (symbol_windows fs k pos) =
  map (fun j => (pos + Z.of_nat j * spb fs, spb fs)) (seq 0 k).
Proof.
  unfold symbol_windows. generalize (seq 0 k) as js.
  induction js as [|j js IH]; [reflexivity|]. simpl. now rewrite <- IH.
Qed.

End TraceLemmas.

Section CoarseProofs.
Import Params Receiver.
Variables (n fs : Z) (tone : Z -> Z -> bool).

Local Abbreviation spb := (Receiver.spb fs).
Local Abbreviation step := (Receiver.step fs).
Local Abbreviation search_max := (Receiver.search_max n fs).

Lemma step_pos : 0 < step.
Proof. unfold Receiver.step. destruct (Z.ltb_spec (spb / SEARCH_STEP_FRAC) 1); lia. Qed.

(** The windows read by a preamble score are consecutive symbol
    windows that end before the last sample. *)
Lemma score_loop_trace k : forall b score off invert,
  exists m, (m <= k)%nat /\
    snd (score_preamble_loop n fs tone k b score off invert) =
    symbol_windows fs m (off + b * spb) /\
    (forall j, (j < m)%nat -> off + (b + Z.of_nat j) * spb + spb < n).
Proof.
  induction k as [|k IH]; intros b score off invert.
  - exists 0%nat. repeat split; [lia|]. intros j Hj. lia.
  - cbn [score_preamble_loop].
    destruct (Z.geb_spec (off + b * spb + spb) n) as [Hge|Hlt].
    + exists 0%nat. repeat split; [lia|]. intros j Hj. lia.
    + rewrite snd_bind, detect_bit_q_trace.
      destruct (IH (b + 1)
                  (if fst (detect_bit_q tone (off + b * spb) spb invert)
                      =? (if Z.land b 1 =? 0 then 0 else 1)
                   then score + 1 else score) off invert)
        as (m & Hm & Htr & Hin).
      exists (S m). split; [lia|]. split.
      * rewrite Htr. change (S m) with (1 + m)%nat.
        rewrite symbol_windows_app. f_equal.
        -- unfold symbol_windows. simpl. do 2 f_equal. lia.
        -- f_equal. lia.
      * intros [|j] Hj.
        -- replace (b + Z.of_nat 0) with b by lia. lia.
        -- specialize (Hin j ltac:(lia)). 
           replace (b + Z.of_nat (S j)) with (b + 1 + Z.of_nat j) by lia. lia.
Qed.

Lemma score_preamble_scores off invert :
  scores (snd (score_preamble n fs tone off invert)) = [(off, invert)].
Proof.
  unfold score_preamble. rewrite snd_bind, scores_app.
  destruct (score_loop_trace (Z.to_nat pre_bits) 0 0 off invert)
    as (m & _ & -> & _).
  now rewrite scores_symbol_windows.
Qed.

Lemma improve_score st off inv s :
  best_score (improve st off inv s) = Z.max (best_score st) s.
Proof.
  unfold improve. destruct (Z.gtb_spec s (best_score st)); simpl; lia.
Qed.

(** One iteration of the coarse loop whose condition holds. *)
Lemma coarse_loop_iter fuel off st :
  off + pre_bits * spb < search_max ->
  let st2 := improve (improve st off 0 (score_at n fs tone off 0))
                     off 1 (score_at n fs tone off 1) in
  let rest := if best_score st2 >? early_stop then ret (Some st2)
              else coarse_loop n fs tone fuel (off + step) st2 in
  fst (coarse_loop n fs tone (S fuel) off st) = fst rest /\
  scores (snd (coarse_loop n fs tone (S fuel) off st)) =
    both off ++ scores (snd rest).
Proof.
  intros Hguard st2 rest. cbn [coarse_loop].
  destruct (Z.ltb_spec (off + pre_bits * spb) search_max) as [_|Hno]; [|lia].
  split.
  - rewrite !fst_bind. reflexivity.
  - rewrite snd_bind, scores_app, score_preamble_scores.
    rewrite snd_bind, scores_app, score_preamble_scores.
    reflexivity.
Qed.

Lemma coarse_loop_exit fuel off st :
  ~ off + pre_bits * spb < search_max ->
  coarse_loop n fs tone (S fuel) off st = ret (Some st).
Proof.
  intros Hguard. cbn [coarse_loop].
  destruct (Z.ltb_spec (off + pre_bits * spb) search_max); [lia|reflexivity].
Qed.

Lemma offsets_from_succ off m :
  offsets_from fs off (S m) = off :: offsets_from fs (off + step) m.
Proof.
  unfold offsets_from. cbn [seq map]. rewrite <- seq_shift, map_map.
  f_equal; [lia|]. apply map_ext. intros k. lia.
Qed.

Hypothesis spb_nonneg : 0 <= spb.

Lemma coarse_loop_inv fuel : forall off st,
  (0 < fuel)%nat -> search_max - off < Z.of_nat fuel ->
  exists m st',
    fst (coarse_loop n fs tone fuel off st) = Some st' /\
    scores (snd (coarse_loop n fs tone fuel off st)) =
      flat_map both (offsets_from fs off m) /\
    Forall (fun o => o + pre_bits * spb < search_max) (offsets_from fs off m) /\
    best_score st' = best_from n fs tone (best_score st) (offsets_from fs off m) /\
    (forall j, (S j < m)%nat ->
       best_from n fs tone (best_score st) (take (S j) (offsets_from fs off m))
       <= early_stop) /\
    (best_score st' <= early_stop ->
       search_max <= off + Z.of_nat m * step + pre_bits * spb).
Proof.
  pose proof step_pos as Hstep.
  assert (Hpre : 0 <= pre_bits * spb) by (change pre_bits with 100; lia).
  induction fuel as [|fuel IH]; intros off st Hfuel Hroom; [lia|].
  destruct (Z_lt_ge_dec (off + pre_bits * spb) search_max) as [Hguard|Hguard].
  - destruct (coarse_loop_iter fuel off st Hguard) as [Hfst Hsnd].
    cbv zeta in Hfst, Hsnd. rewrite Hfst, Hsnd. clear Hfst Hsnd.
    set (st2 := improve (improve st off 0 (score_at n fs tone off 0))
                        off 1 (score_at n fs tone off 1)).
    assert (Hst2 : best_score st2 =
                   best_from n fs tone (best_score st) [off]).
    { subst st2. now rewrite !improve_score. }
    destruct (Z.gtb_spec (best_score st2) early_stop) as [Hstop|Hgo].
    + exists 1%nat, st2. rewrite offsets_from_succ. cbn [offsets_from seq map].
      splits.
      * reflexivity.
      * reflexivity.
      * repeat constructor. exact Hguard.
      * exact Hst2.
      * intros j Hj. lia.
      * intros Hle. lia.
    + destruct (IH (off + step) st2 ltac:(lia) ltac:(lia))
        as (m & st' & Hres & Hsc & Hall & Hbest & Hpre' & Hfull).
      exists (S m), st'. rewrite offsets_from_succ. splits.
      * exact Hres.
      * rewrite Hsc. reflexivity.
      * constructor; assumption.
      * rewrite Hbest, Hst2. reflexivity.
      * intros [|j] Hj.
        -- cbn [take]. rewrite take_0. rewrite <- Hst2. lia.
        -- cbn [take]. specialize (Hpre' j ltac:(lia)).
           rewrite Hst2 in Hpre'. exact Hpre'.
      * intros Hle. specialize (Hfull Hle). lia.
  - rewrite coarse_loop_exit by lia.
    exists 0%nat, st. splits.
    + reflexivity.
    + reflexivity.
    + constructor.
    + reflexivity.
    + intros j Hj. lia.
    + intros _. simpl. lia.
Qed.

(** The coarse search as a whole. *)
Lemma coarse_search_inv :
  exists m c,
    fst (coarse_search n fs tone) = Some c /\
    scores (snd (coarse_search n fs tone)) = flat_map both (offsets_from fs 0 m) /\
    Forall (fun o => o + pre_bits * spb < search_max) (offsets_from fs 0 m) /\
    best_score c = best_from n fs tone (-1) (offsets_from fs 0 m) /\
    (forall j, (S j < m)%nat ->
       best_from n fs tone (-1) (take (S j) (offsets_from fs 0 m)) <= early_stop) /\
    (best_score c <= early_stop ->
       search_max <= Z.of_nat m * step + pre_bits * spb).
Proof.
  unfold coarse_search, coarse_fuel.
  apply (coarse_loop_inv (S (Z.to_nat search_max)) 0
           {| best_off := -1; best_inv := 0; best_score := -1 |}); lia.
Qed.

End CoarseProofs.

Section CoarseTheorems.
Import Params Receiver.
Variables (n fs : Z) (tone : Z -> Z -> bool).

Local Abbreviation spb := (Receiver.spb fs).
Local Abbreviation step := (Receiver.step fs).
Local Abbreviation search_max := (Receiver.search_max n fs).

Lemma in_offsets_from m k :
  0 <= k -> (Z.to_nat k < m)%nat -> In (k * step) (offsets_from fs 0 m).
Proof.
  intros Hk Hlt. unfold offsets_from. apply in_map_iff.
  exists (Z.to_nat k). split; [rewrite Z2Nat.id by lia; lia|]. apply in_seq. lia.
Qed.

Lemma in_both_scores offs o :
  In o offs ->
  In (o, 0) (flat_map both offs) /\ In (o, 1) (flat_map both offs).
Proof.
  intros Hin. split; apply in_flat_map; exists o; (split; [exact Hin|]);
    simpl; auto.
Qed.

Lemma offsets_from_bound m :
  Forall (fun o => o + pre_bits * spb < search_max) (offsets_from fs 0 m) ->
  forall k, (k < m)%nat ->
    0 <= Z.of_nat k * step /\ Z.of_nat k * step + pre_bits * spb < search_max.
Proof.
  intros Hall k Hk. pose proof (step_pos fs) as Hstep. split; [nia|].
  rewrite List.Forall_forall in Hall.
  apply (Hall (0 + Z.of_nat k * step)).
  apply in_map_iff. exists k. split; [lia|]. apply in_seq. lia.
Qed.

End CoarseTheorems.

(** C2 (as the code has it).  The coarse search evaluates the candidate
    offsets [0, step, 2*step, ...] with [step = max(spb/6, 1)] for as long
    as [off + pre_bits*spb < search_max], where
    [search_max = min(3*fs, N)]: the offsets scanned lie in
    [[0, search_max - pre_bits*spb)], not in all of [[0, search_max)].  At
    every offset evaluated the preamble score is computed for both
    polarities, and unless the scan ends early every offset of the grid
    with [off + pre_bits*spb < search_max] is evaluated. *)
Theorem coarse_scan_range (n fs : Z) (tone : Z -> Z -> bool) :
  40 <= Receiver.spb fs ->
  let spb := Receiver.spb fs in
  let step := Receiver.step fs in
  let search_max := Receiver.search_max n fs in
  let run := Receiver.coarse_search n fs tone in
  step = Z.max (spb / 6) 1 /\
  search_max = Z.min (3 * fs) n /\
  exists m c,
    fst run = Some c /\
    Receiver.scores (snd run) =
      flat_map Receiver.both (map (fun k => Z.of_nat k * step) (seq 0 m)) /\
    (forall k, (k < m)%nat ->
       0 <= Z.of_nat k * step /\
       Z.of_nat k * step + Params.pre_bits * spb < search_max) /\
    (Receiver.best_score c <= Receiver.early_stop ->
     forall k, 0 <= k -> k * step + Params.pre_bits * spb < search_max ->
       In (k * step, 0) (Receiver.scores (snd run)) /\
       In (k * step, 1) (Receiver.scores (snd run))).
Proof.
  intros Hspb spb step search_max run.
  pose proof (step_pos fs) as Hstep.
  split; [|split].
  - subst step spb. unfold Receiver.step, Receiver.SEARCH_STEP_FRAC.
    destruct (Z.ltb_spec (Receiver.spb fs / 6) 1); lia.
  - subst search_max. unfold Receiver.search_max.
    destruct (Z.gtb_spec (3 * fs) n); lia.
  - destruct (coarse_search_inv n fs tone ltac:(lia))
      as (m & c & Hres & Hsc & Hall & _ & _ & Hfull).
    exists m, c. splits.
    + exact Hres.
    + subst run. rewrite Hsc. reflexivity.
    + apply offsets_from_bound. exact Hall.
    + intros Hle k Hk Hin. subst run. rewrite Hsc.
      apply in_both_scores, in_offsets_from; [lia|].
      specialize (Hfull Hle). fold step spb search_max in Hfull. nia.
Qed.

(** C2 on 12050 silent samples at 8000 Hz. *)
Lemma coarse_scan_range_witness :
  40 <= Receiver.spb 8000 /\
  exists m c,
    fst (Receiver.coarse_search 12050 8000 Scenarios.low_tone) = Some c /\
    Receiver.scores (snd (Receiver.coarse_search 12050 8000 Scenarios.low_tone)) =
      flat_map Receiver.both
        (map (fun k => Z.of_nat k * Receiver.step 8000) (seq 0 m)).
Proof.
  assert (H : 40 <= Receiver.spb 8000) by (vm_compute; discriminate).
  split; [exact H|].
  destruct (coarse_scan_range 12050 8000 Scenarios.low_tone H)
    as (_ & _ & m & c & Hres & Hsc & _).
  exists m, c. split; [exact Hres|exact Hsc].
Defined.

(** C2 as stated fails: with 12050 samples at 8000 Hz ([spb = 120],
    [step = 20], [search_max = 12050]) and a best score of 50 throughout
    (no early termination), offset 60 lies in [[0, search_max)] on the
    grid of the scan, yet only offsets 0, 20 and 40 are scored. *)
Lemma coarse_scan_range_counterexample :
  let run := Receiver.coarse_search 12050 8000 Scenarios.low_tone in
  0 <= 60 < Receiver.search_max 12050 8000 /\
  60 = 3 * Receiver.step 8000 /\
  fst run = Some {| Receiver.best_off := 0; Receiver.best_inv := 0;
                    Receiver.best_score := 50 |} /\
  Receiver.scores (snd run) = [(0, 0); (0, 1); (20, 0); (20, 1); (40, 0); (40, 1)] /\
  ~ In (60, 0) (Receiver.scores (snd run)).
Proof.
  assert (Hsc : Receiver.scores (snd (Receiver.coarse_search 12050 8000 Scenarios.low_tone))
                = [(0, 0); (0, 1); (20, 0); (20, 1); (40, 0); (40, 1)])
    by (vm_compute; reflexivity).
  cbv zeta. rewrite Hsc. splits.
  - vm_compute. discriminate.
  - vm_compute. reflexivity.
  - vm_compute. reflexivity.
  - vm_compute. reflexivity.
  - reflexivity.
  - simpl. intros H. repeat (destruct H as [H|H]; [discriminate H|]). exact H.
Qed.

(** C3 (as the code has it).  The scan stops as soon as the best score
    so far exceeds the integer part of [0.93 * pre_bits], that is 93: it
    stops at 94, not at 93.  An offset after which the scan goes on left
    the best score at 93 or below, so no offset is evaluated after one
    that raised the best score above 93; and when the best score stays at
    93 or below, every offset of the grid with
    [off + pre_bits*spb < search_max] is scanned. *)
Theorem coarse_early_termination (n fs : Z) (tone : Z -> Z -> bool) :
  40 <= Receiver.spb fs ->
  let spb := Receiver.spb fs in
  let step := Receiver.step fs in
  let search_max := Receiver.search_max n fs in
  let run := Receiver.coarse_search n fs tone in
  Receiver.early_stop = 93 /\
  exists m c,
    let offs := Receiver.offsets_from fs 0 m in
    fst run = Some c /\
    Receiver.scores (snd run) = flat_map Receiver.both offs /\
    Receiver.best_score c = Receiver.best_from n fs tone (-1) offs /\
    (forall j, (S j < m)%nat ->
       Receiver.best_from n fs tone (-1) (take (S j) offs) <= Receiver.early_stop) /\
    (Receiver.best_from n fs tone (-1) offs <= Receiver.early_stop ->
     forall k, 0 <= k -> k * step + Params.pre_bits * spb < search_max ->
       In (k * step) offs).
Proof.
  intros Hspb spb step search_max run.
  pose proof (step_pos fs) as Hstep.
  split; [reflexivity|].
  destruct (coarse_search_inv n fs tone ltac:(lia))
    as (m & c & Hres & Hsc & _ & Hbest & Hpre & Hfull).
  exists m, c. cbv zeta. splits; try assumption.
  intros Hle k Hk Hin. rewrite <- Hbest in Hle. specialize (Hfull Hle).
  apply in_offsets_from; [lia|]. fold step spb search_max in Hfull. nia.
Qed.

(** C3 on the idealised capture of a whole transmission at 8000 Hz. *)
Lemma coarse_early_termination_witness :
  40 <= Receiver.spb 8000 /\
  exists m c,
    fst (Receiver.coarse_search 49440 8000 Scenarios.clean) = Some c /\
    Receiver.best_score c =
      Receiver.best_from 49440 8000 Scenarios.clean (-1)
        (Receiver.offsets_from 8000 0 m).
Proof.
  assert (H : 40 <= Receiver.spb 8000) by (vm_compute; discriminate).
  split; [exact H|].
  destruct (coarse_early_termination 49440 8000 Scenarios.clean H)
    as (_ & m & c & Hres & _ & Hbest & _).
  exists m, c. split; [exact Hres|exact Hbest].
Defined.

(** C3 as stated fails: with 93 of the 100 preamble bits matching at
    offset 0, the best score reaches the ceiling of [0.93 * pre_bits]
    there, yet offsets 20 and 40 are evaluated afterwards. *)
Lemma coarse_early_termination_counterexample :
  let run := Receiver.coarse_search 12050 8000 Scenarios.almost in
  Receiver.stop_score_spec = 93 /\
  Receiver.score_at 12050 8000 Scenarios.almost 0 0 = Receiver.stop_score_spec /\
  Receiver.scores (snd run) = [(0, 0); (0, 1); (20, 0); (20, 1); (40, 0); (40, 1)].
Proof. cbv zeta. splits; vm_compute; reflexivity. Qed.

(* ===================================================================== *)
(** * Proofs: the refinement on the magic                                 *)
(* ===================================================================== *)

Section RefineProofs.
Import Params Receiver.
Variables (n fs : Z) (tone : Z -> Z -> bool).

Local Abbreviation spb := (Receiver.spb fs).
Local Abbreviation step2 := (Receiver.step2 fs).

Lemma step2_pos : 0 < step2.
Proof. unfold Receiver.step2. destruct (Z.ltb_spec (spb / REFINE_STEPS) 1); lia. Qed.

Lemma find_app {A} (f : A -> bool) l1 l2 :
  find f (l1 ++ l2) =
  match find f l1 with Some x => Some x | None => find f l2 end.
Proof.
  induction l1 as [|x l1 IH]; [reflexivity|].
  simpl. destruct (f x); [reflexivity|exact IH].
Qed.

Lemma upto_first_app {A} (f : A -> bool) l1 l2 :
  upto_first f (l1 ++ l2) =
  match find f l1 with
  | Some _ => upto_first f l1
  | None => l1 ++ upto_first f l2
  end.
Proof.
  induction l1 as [|x l1 IH]; [reflexivity|].
  simpl. destruct (f x); [reflexivity|].
  rewrite IH. now destruct (find f l1).
Qed.

Lemma upto_first_none {A} (f : A -> bool) l :
  find f l = None -> upto_first f l = l.
Proof.
  induction l as [|x l IH]; [reflexivity|].
  simpl. destruct (f x); [discriminate|]. intros H. now rewrite IH.
Qed.

Lemma find_some_true {A} (f : A -> bool) l x :
  find f l = Some x -> f x = true.
Proof. intros H. now apply find_some in H. Qed.

(** The trace of one speculative decode holds one try. *)
Lemma try_trace p inv :
  tries (snd (decode_bytes fs tone 4 p inv)) = [].
Proof. rewrite decode_bytes_trace. apply tries_symbol_windows. Qed.

(** The inner loop at [p]: both polarities, 0 first, when [p] passes
    the guards; nothing otherwise. *)
Lemma refine_inner_spec p :
  let cs := if refine_guard n fs p then [(p, 0); (p, 1)] else [] in
  fst (refine_inner n fs tone 2 0 p) = find (magic_at fs tone) cs /\
  tries (snd (refine_inner n fs tone 2 0 p)) = upto_first (magic_at fs tone) cs.
Proof.
  unfold refine_guard. cbn [refine_inner].
  destruct (p <? 0); [split; reflexivity|].
  destruct (p + 4 * REP * spb * 8 >=? n); [split; reflexivity|].
  cbn [negb andb find upto_first].
  change (0 + 1) with 1.
  unfold magic_at, bytes_at. cbn [fst snd].
  split.
  - rewrite !fst_bind. cbn [tell fst].
    destruct (is_magic (fst (fst (decode_bytes fs tone 4 p 0)))); [reflexivity|].
    rewrite !fst_bind. cbn [tell fst].
    destruct (is_magic (fst (fst (decode_bytes fs tone 4 p 1)))); reflexivity.
  - rewrite !snd_bind, !tries_app, try_trace. cbn [tell snd tries flat_map app].
    destruct (is_magic (fst (fst (decode_bytes fs tone 4 p 0)))); [reflexivity|].
    rewrite !snd_bind, !tries_app, try_trace. cbn [tell snd tries flat_map app].
    destruct (is_magic (fst (fst (decode_bytes fs tone 4 p 1)))); reflexivity.
Qed.

Lemma deltas_from_done delta : spb < delta -> deltas_from fs delta = [].
Proof.
  intros Hgt. unfold deltas_from. pose proof step2_pos as Hs.
  assert ((spb - delta) / step2 < 0) by (apply Z.div_lt_upper_bound; lia).
  replace (Z.to_nat ((spb - delta) / step2 + 1)) with 0%nat by lia.
  reflexivity.
Qed.

Lemma deltas_from_next delta :
  delta <= spb ->
  deltas_from fs delta = delta :: deltas_from fs (delta + step2).
Proof.
  intros Hle. unfold deltas_from. pose proof step2_pos as Hs.
  assert (Hq : 0 <= (spb - delta) / step2) by (apply Z.div_pos; lia).
  replace (spb - (delta + step2)) with (spb - delta + (-1) * step2) by lia.
  rewrite Z.div_add by lia.
  replace (Z.to_nat ((spb - delta) / step2 + 1))
    with (S (Z.to_nat ((spb - delta) / step2 + -1 + 1))) by lia.
  cbn [seq map]. rewrite <- seq_shift, map_map.
  f_equal; [lia|]. apply map_ext. intros k. lia.
Qed.

Lemma refine_loop_spec fuel best_inv base : forall delta,
  (0 < fuel)%nat -> spb - delta + 1 < Z.of_nat fuel ->
  let cands := candidates_from n fs base delta in
  fst (refine_loop n fs tone fuel delta base best_inv) =
    Some (match find (magic_at fs tone) cands with
          | Some c => c
          | None => (-1, best_inv)
          end) /\
  tries (snd (refine_loop n fs tone fuel delta base best_inv)) =
    upto_first (magic_at fs tone) cands.
Proof.
  pose proof step2_pos as Hs.
  induction fuel as [|fuel IH]; intros delta Hfuel Hroom; [lia|].
  cbn [refine_loop]. unfold candidates_from.
  destruct (Z.leb_spec delta spb) as [Hle|Hgt].
  - rewrite deltas_from_next by assumption. cbn [flat_map].
    destruct (refine_inner_spec (base + delta)) as [Hin Htr].
    cbv zeta in Hin, Htr.
    rewrite fst_bind, snd_bind, tries_app, Htr, Hin, find_app, upto_first_app.
    destruct (find (magic_at fs tone)
                (if refine_guard n fs (base + delta)
                 then [(base + delta, 0); (base + delta, 1)] else []))
      as [c|] eqn:Hfind.
    + split; [reflexivity|]. cbn [ret snd tries flat_map]. apply app_nil_r.
    + destruct (IH (delta + step2) ltac:(lia) ltac:(lia)) as [Hres Htries].
      cbv zeta in Hres, Htries. unfold candidates_from in Hres, Htries.
      rewrite Hres, Htries. rewrite (upto_first_none _ _ Hfind).
      split; reflexivity.
  - rewrite deltas_from_done by assumption. split; reflexivity.
Qed.

End RefineProofs.

(** C4 (as the code has it).  The refinement tries the positions
    [p = base + delta], [delta] from [-spb] to [spb] in steps of
    [max(spb/24, 1)], that pass the guards; at each of them polarity 0 is
    tried first and polarity 1 second, whatever polarity the coarse search
    found.  The candidates are tried in this order up to the first whose
    four decoded bytes are "STEG", which is accepted as
    [(position, invert)]; without one the position stays [-1]. *)
Theorem refine_polarity_order (n fs : Z) (tone : Z -> Z -> bool)
    (base best_inv : Z) :
  40 <= Receiver.spb fs ->
  let cands := Receiver.refine_candidates n fs base in
  let run := Receiver.refine n fs tone base best_inv in
  Receiver.step2 fs = Z.max (Receiver.spb fs / 24) 1 /\
  Receiver.tries (snd run) =
    Receiver.upto_first (Receiver.magic_at fs tone) cands /\
  fst run = Some (match find (Receiver.magic_at fs tone) cands with
                  | Some c => c
                  | None => (-1, best_inv)
                  end) /\
  (forall p inv, find (Receiver.magic_at fs tone) cands = Some (p, inv) ->
     Receiver.bytes_at fs tone 4 p inv = Params.MAGIC).
Proof.
  intros Hspb cands run. splits.
  - unfold Receiver.step2, Receiver.REFINE_STEPS.
    destruct (Z.ltb_spec (Receiver.spb fs / 24) 1); lia.
  - apply refine_loop_spec; unfold Receiver.refine_fuel; lia.
  - apply refine_loop_spec; unfold Receiver.refine_fuel; lia.
  - intros p inv Hfind. apply find_some_true in Hfind.
    unfold Receiver.magic_at in Hfind. cbn [fst snd] in Hfind.
    destruct (Receiver.bytes_at fs tone 4 p inv) as [|m0 [|m1 [|m2 [|m3 [|]]]]];
      try discriminate Hfind.
    cbn [Receiver.is_magic] in Hfind.
    apply andb_prop in Hfind as [Hfind H3].
    apply andb_prop in Hfind as [Hfind H2].
    apply andb_prop in Hfind as [H0 H1].
    apply Z.eqb_eq in H0, H1, H2, H3. subst. reflexivity.
Qed.

(** C4 on the idealised capture, from the base the coarse search gives. *)
Lemma refine_polarity_order_witness :
  40 <= Receiver.spb 8000 /\
  Receiver.tries (snd (Receiver.refine 49440 8000 Scenarios.clean 12000 0)) =
  Receiver.upto_first (Receiver.magic_at 8000 Scenarios.clean)
    (Receiver.refine_candidates 49440 8000 12000).
Proof.
  assert (H : 40 <= Receiver.spb 8000) by (vm_compute; discriminate).
  split; [exact H|].
  exact (proj1 (proj2 (refine_polarity_order 49440 8000 Scenarios.clean 12000 0 H))).
Defined.

(** C4 as stated fails: on the capture with the tones exchanged the
    coarse search finds polarity 1 best, and the refinement still tries
    polarity 0 first at position 11880, then polarity 1. *)
Lemma refine_polarity_order_counterexample :
  fst (Receiver.coarse_search 49440 8000 Scenarios.swapped) =
    Some {| Receiver.best_off := 0; Receiver.best_inv := 1;
            Receiver.best_score := 100 |} /\
  Receiver.tries (snd (Receiver.refine 49440 8000 Scenarios.swapped 12000 1)) =
    [(11880, 0); (11880, 1)] /\
  fst (Receiver.refine 49440 8000 Scenarios.swapped 12000 1) = Some (11880, 1).
Proof. splits; vm_compute; reflexivity. Qed.

(* ===================================================================== *)
(** * Proofs: the frame decoder                                           *)
(* ===================================================================== *)

Section FrameDecodeProofs.
Import Params Receiver.
Variables (fs : Z) (tone : Z -> Z -> bool).
Variable decrypt : list Z -> option (list Z).

Local Abbreviation spb := (Receiver.spb fs).

Lemma decode_bytes_split k pos invert :
  decode_bytes fs tone k pos invert =
  ((bytes_at fs tone k pos invert, pos + Z.of_nat k * (8 * REP * spb)),
   symbol_windows fs (k * 24) pos).
Proof.
  pose proof (decode_bytes_pos fs tone k pos invert) as Hp.
  pose proof (decode_bytes_trace fs tone k pos invert) as Ht.
  unfold bytes_at.
  destruct (decode_bytes fs tone k pos invert) as [[vs pos'] l].
  cbn [fst snd] in *. now subst.
Qed.

Lemma header_magic pos invert :
  take 4 (bytes_at fs tone 8 pos invert) = bytes_at fs tone 4 pos invert.
Proof.
  change 8%nat with (4 + 4)%nat.
  rewrite (bytes_at_app fs tone 4 4 pos invert).
  rewrite take_app_length'; [reflexivity|symmetry; apply decode_bytes_length].
Qed.

(** The frame decoder, exit by exit. *)
Lemma decode_frame_cases pos invert :
  let hdr := bytes_at fs tone 8 pos invert in
  let clen := header_len fs tone pos invert in
  let pos1 := pos + 8 * (8 * REP * spb) in
  let body := bytes_at fs tone (Z.to_nat clen) pos1 invert in
  let pos2 := pos1 + Z.of_nat (Z.to_nat clen) * (8 * REP * spb) in
  let crc_bytes := bytes_at fs tone 4 pos2 invert in
  decode_frame fs tone decrypt pos invert =
  if negb (magic_at fs tone (pos, invert))
  then (inl MagicMismatch, symbol_windows fs (8 * 24) pos)
  else if (clen =? 0) || (clen >? 2000000)
  then (inl BadLen, symbol_windows fs (8 * 24) pos)
  else
    (if negb (Crc32.crc32_compute (hdr ++ body) =? be32 crc_bytes)
     then inl CrcMismatch
     else match decrypt body with
          | None => inl DecryptFailed
          | Some plain => inr plain
          end,
     symbol_windows fs ((8 + Z.to_nat clen + 4) * 24) pos).
Proof.
  assert (Hm : magic_at fs tone (pos, invert) =
               is_magic (take 4 (bytes_at fs tone 8 pos invert))).
  { unfold magic_at. cbn [fst snd]. now rewrite header_magic. }
  rewrite Hm. clear Hm.
  unfold decode_frame, header_len. cbv zeta.
  rewrite decode_bytes_split. unfold bind at 1.
  pose proof (decode_bytes_length fs tone 8 pos invert) as Hlen.
  revert Hlen. generalize (bytes_at fs tone 8 pos invert) as hdr.
  intros hdr Hlen.
  destruct (is_magic (take 4 hdr)); unfold negb at 1 3;
    [|unfold ret; now rewrite app_nil_r].
  generalize (be32 (drop 4 hdr)) as clen. intros clen.
  destruct ((clen =? 0) || (clen >? 2000000));
    [unfold ret; now rewrite app_nil_r|].
  replace (pos + Z.of_nat 8 * (8 * REP * spb)) with (pos + 8 * (8 * REP * spb))
    by reflexivity.
  rewrite decode_bytes_split. unfold bind at 1.
  rewrite decode_bytes_split. unfold bind at 1.
  assert (Hdrop : forall body : list Z, drop 8 (hdr ++ body) = body).
  { intros body. rewrite <- Hlen. apply drop_app_length. }
  rewrite Hdrop.
  assert (Htr : symbol_windows fs (8 * 24) pos ++
                symbol_windows fs (Z.to_nat clen * 24) (pos + 8 * (8 * REP * spb)) ++
                symbol_windows fs (4 * 24)
                  (pos + 8 * (8 * REP * spb) +
                   Z.of_nat (Z.to_nat clen) * (8 * REP * spb)) =
                symbol_windows fs ((8 + Z.to_nat clen + 4) * 24) pos).
  { replace ((8 + Z.to_nat clen + 4) * 24)%nat
      with (8 * 24 + (Z.to_nat clen * 24 + 4 * 24))%nat by lia.
    rewrite !symbol_windows_app.
    replace (pos + Z.of_nat (8 * 24) * spb) with (pos + 8 * (8 * REP * spb))
      by (unfold REP; lia).
    replace (Z.of_nat (Z.to_nat clen * 24) * spb)
      with (Z.of_nat (Z.to_nat clen) * (8 * REP * spb))
      by (unfold REP; lia).
    reflexivity. }
  rewrite <- Htr.
  destruct (negb (Crc32.crc32_compute _ =? be32 _));
    [|destruct (decrypt _)]; unfold ret; now rewrite ?app_nil_r.
Qed.

End FrameDecodeProofs.

(** The refinement only accepts a position at which the four decoded
    bytes are the magic. *)
Lemma refine_accepts_magic (n fs : Z) (tone : Z -> Z -> bool)
    (base best_inv p inv : Z) :
  40 <= Receiver.spb fs ->
  fst (Receiver.refine n fs tone base best_inv) = Some (p, inv) ->
  0 <= p ->
  Receiver.magic_at fs tone (p, inv) = true.
Proof.
  intros Hspb Hres Hp.
  destruct (refine_loop_spec n fs tone (Receiver.refine_fuel fs) best_inv base
              (- Receiver.spb fs)) as [Hfst _];
    [unfold Receiver.refine_fuel; lia..|].
  cbv zeta in Hfst. unfold Receiver.refine in Hres. rewrite Hfst in Hres.
  destruct (find _ _) as [c|] eqn:Hfind.
  - injection Hres as ->. now apply find_some_true in Hfind.
  - injection Hres as Hneg _. lia.
Qed.


(** The header decode reads [8 * 8 * REP] symbol windows from the
    refined position on, with no test against the number of samples. *)
Lemma decode_frame_header_windows (fs : Z) (tone : Z -> Z -> bool)
    (decrypt : list Z -> option (list Z)) (pos invert : Z) :
  exists rest,
    snd (Receiver.decode_frame fs tone decrypt pos invert) =
    Receiver.symbol_windows fs (8 * 24) pos ++ rest.
Proof.
  rewrite decode_frame_cases.
  destruct (negb _); [exists []; now rewrite app_nil_r|].
  destruct (_ || _); [exists []; now rewrite app_nil_r|].
  cbn [snd].
  replace ((8 + Z.to_nat (Receiver.header_len fs tone pos invert) + 4) * 24)%nat
    with (8 * 24 + (Z.to_nat (Receiver.header_len fs tone pos invert) * 24 + 4 * 24))%nat
    by lia.
  rewrite symbol_windows_app. eexists. reflexivity.
Qed.

(** A capture that ends less than 8 bytes after the refined position is
    read past its end, although the refinement guard (4 bytes) holds. *)
Lemma decode_frame_header_overrun (n fs : Z) (tone : Z -> Z -> bool)
    (decrypt : list Z -> option (list Z)) (pos invert : Z) :
  n < pos + 8 * 8 * Params.REP * Receiver.spb fs ->
  ~ Receiver.in_bounds n (snd (Receiver.decode_frame fs tone decrypt pos invert)).
Proof.
  intros Hshort Hin.
  destruct (decode_frame_header_windows fs tone decrypt pos invert) as [rest Hw].
  specialize (Hin (pos + 191 * Receiver.spb fs) (Receiver.spb fs)).
  rewrite Hw, windows_app, windows_symbol_windows in Hin.
  assert (Hmem : In (pos + 191 * Receiver.spb fs, Receiver.spb fs)
                    (map (fun j => (pos + Z.of_nat j * Receiver.spb fs, Receiver.spb fs))
                         (seq 0 (8 * 24)) ++ Receiver.windows rest)).
  { apply in_or_app. left. apply in_map_iff. exists 191%nat.
    split; [reflexivity|]. apply in_seq. lia. }
  specialize (Hin Hmem). unfold Params.REP in Hshort. lia.
Qed.

(* ===================================================================== *)
(** * Proofs: sample accesses of the two searches                         *)
(* ===================================================================== *)

Section BoundsProofs.
Import Params Receiver.
Variables (n fs : Z) (tone : Z -> Z -> bool).
Hypothesis spb_nonneg : 0 <= Receiver.spb fs.

Local Abbreviation spb := (Receiver.spb fs).

Lemma in_bounds_nil : in_bounds n [].
Proof. intros start len []. Qed.

Lemma in_bounds_app l1 l2 :
  in_bounds n l1 -> in_bounds n l2 -> in_bounds n (l1 ++ l2).
Proof.
  intros H1 H2 start len Hin. rewrite windows_app in Hin.
  apply in_app_or in Hin as [Hin|Hin]; [now apply H1|now apply H2].
Qed.

(** [k] symbol windows from [pos >= 0] on that end by sample [n]. *)
Lemma in_bounds_symbol_windows k pos :
  0 <= pos -> pos + Z.of_nat k * spb <= n ->
  in_bounds n (symbol_windows fs k pos).
Proof.
  intros Hpos Hend start len Hin.
  rewrite windows_symbol_windows in Hin.
  apply in_map_iff in Hin as (j & Heq & Hj). apply in_seq in Hj.
  injection Heq as <- <-. nia.
Qed.

Lemma score_preamble_in_bounds off invert :
  0 <= off -> in_bounds n (snd (score_preamble n fs tone off invert)).
Proof.
  intros Hoff. unfold score_preamble. rewrite snd_bind.
  apply in_bounds_app; [intros start len []|].
  destruct (score_loop_trace n fs tone (Z.to_nat pre_bits) 0 0 off invert)
    as (m & _ & -> & Hin).
  destruct m as [|m]; [apply in_bounds_nil|].
  apply in_bounds_symbol_windows; [lia|].
  specialize (Hin m ltac:(lia)). lia.
Qed.

Lemma coarse_loop_in_bounds fuel : forall off st,
  0 <= off -> in_bounds n (snd (coarse_loop n fs tone fuel off st)).
Proof.
  pose proof (step_pos fs) as Hstep.
  induction fuel as [|fuel IH]; intros off st Hoff; [apply in_bounds_nil|].
  cbn [coarse_loop].
  destruct (off + pre_bits * spb <? Receiver.search_max n fs);
    [|apply in_bounds_nil].
  rewrite snd_bind.
  apply in_bounds_app; [now apply score_preamble_in_bounds|].
  rewrite snd_bind.
  apply in_bounds_app; [now apply score_preamble_in_bounds|].
  destruct (_ >? early_stop); [apply in_bounds_nil|].
  apply IH. lia.
Qed.

Lemma refine_inner_in_bounds k : forall inv_try p,
  in_bounds n (snd (refine_inner n fs tone k inv_try p)).
Proof.
  induction k as [|k IH]; intros inv_try p; [apply in_bounds_nil|].
  cbn [refine_inner].
  destruct (Z.ltb_spec p 0) as [|Hp]; [apply IH|].
  destruct (Z.geb_spec (p + 4 * REP * spb * 8) n) as [|Hend]; [apply IH|].
  rewrite snd_bind. apply in_bounds_app; [intros start len []|].
  rewrite snd_bind. apply in_bounds_app.
  - rewrite decode_bytes_trace. apply in_bounds_symbol_windows; [lia|].
    unfold REP in Hend. lia.
  - destruct (is_magic _); [apply in_bounds_nil|apply IH].
Qed.

Lemma refine_loop_in_bounds fuel : forall delta base best_inv,
  in_bounds n (snd (refine_loop n fs tone fuel delta base best_inv)).
Proof.
  induction fuel as [|fuel IH]; intros delta base best_inv;
    [apply in_bounds_nil|].
  cbn [refine_loop]. destruct (delta <=? spb); [|apply in_bounds_nil].
  rewrite snd_bind. apply in_bounds_app; [apply refine_inner_in_bounds|].
  destruct (fst _); [apply in_bounds_nil|apply IH].
Qed.


End BoundsProofs.

Section HeaderLenProofs.
Import Params Receiver.
Variables (fs : Z) (tone : Z -> Z -> bool).


End HeaderLenProofs.





(** C10 (violated).  A capture of 132400 samples at 44100 Hz that holds
    the preamble, the magic and four more symbols: the refinement accepts
    position 65538 (its guard [65538 + 63552 < 132400] holds), and the
    header decode then reads the window of 662 samples at 191980, which
    ends at index 192641, beyond the last sample. *)
Theorem frame_decode_reads_past_end :
  let run := Receiver.main 132400 44100 Scenarios.cut Some in
  Receiver.tries (snd run) = [(65538, 0)] /\
  fst run = Some (inl Receiver.BadLen) /\
  nth_error (Receiver.windows (snd run)) 487 = Some (191980, 662) /\
  ~ Receiver.in_bounds 132400 (snd run).
Proof.
  assert (Hw : nth_error
                 (Receiver.windows (snd (Receiver.main 132400 44100 Scenarios.cut Some)))
                 487 = Some (191980, 662)) by (vm_compute; reflexivity).
  cbv zeta. splits.
  - vm_compute. reflexivity.
  - vm_compute. reflexivity.
  - exact Hw.
  - intros Hin. apply nth_error_In in Hw. specialize (Hin _ _ Hw). lia.
Qed.

(* ===================================================================== *)
(** * Proofs: the receiver returns                                        *)
(* ===================================================================== *)

(** The fuel given to the two search loops never runs out: [main] is
    never [None].  (Whether the C program reaches the exit computed here
    depends on the frame decode staying inside the capture.) *)
Lemma main_returns (n fs : Z) (tone : Z -> Z -> bool)
    (decrypt : list Z -> option (list Z)) :
  exists res, fst (Receiver.main n fs tone decrypt) = Some res.
Proof.
  unfold Receiver.main.
  destruct (n <=? 0); [eexists; reflexivity|].
  destruct (Z.ltb_spec (Receiver.spb fs) 40) as [|Hspb]; [eexists; reflexivity|].
  rewrite fst_bind.
  destruct (coarse_search_inv n fs tone ltac:(lia)) as (m & c & -> & _).
  destruct (Receiver.best_off c <? 0); [eexists; reflexivity|].
  rewrite fst_bind.
  destruct (refine_loop_spec n fs tone (Receiver.refine_fuel fs)
              (Receiver.best_inv c)
              (Receiver.best_off c + Params.pre_bits * Receiver.spb fs)
              (- Receiver.spb fs)) as [Hfst _];
    [unfold Receiver.refine_fuel; lia..|].
  cbv zeta in Hfst. unfold Receiver.refine. rewrite Hfst.
  destruct (match find _ _ with Some c0 => c0 | None => _ end) as [best_pos best_inv2].
  destruct (best_pos <? 0); [eexists; reflexivity|].
  rewrite fst_bind. eexists. reflexivity.
Qed.

(* ===================================================================== *)
(** * The receiver on idealised captures                                  *)
(* ===================================================================== *)

(** With the sender's symbols for the one-byte ciphertext [0x41]
    detected ideally (8000 Hz, 412 symbols of 120 samples) and the
    identity for the cipher, the receiver returns the byte; it locks one
    symbol early, where the majority vote still reads every bit. *)
Example ideal_capture_decodes :
  fst (Receiver.main 49440 8000 Scenarios.clean Some) = Some (inr [0x41]) /\
  Receiver.tries (snd (Receiver.main 49440 8000 Scenarios.clean Some)) =
  [(11880, 0)].
Proof. split; vm_compute; reflexivity. Qed.

(** The same capture with the tones exchanged is decoded with
    [invert = 1]. *)
Example swapped_capture_decodes :
  fst (Receiver.main 49440 8000 Scenarios.swapped Some) = Some (inr [0x41]) /\
  Receiver.tries (snd (Receiver.main 49440 8000 Scenarios.swapped Some)) =
  [(11880, 0); (11880, 1)].
Proof. split; vm_compute; reflexivity. Qed.

(** A capture shorter than one preamble window is never scored. *)
Example short_capture_no_sync :
  Receiver.main 12000 8000 Scenarios.clean Some =
  (Some (inl Receiver.SyncNotFound), []).
Proof. vm_compute. reflexivity. Qed.

(* ===================================================================== *)
(** * Further properties: CRC-32                                          *)
(* ===================================================================== *)

Section Crc32Errors.
Import Crc32.

Lemma crc_shift_lxor a b :
  crc_shift (Z.lxor a b) = Z.lxor (crc_shift a) (crc_shift b).
Proof.
  rewrite !crc_shift_testbit, Z.shiftr_lxor, Z.lxor_spec.
  apply Z.bits_inj'. intros i Hi. rewrite !Z.lxor_spec.
  destruct (Z.testbit a 0), (Z.testbit b 0); cbn [xorb];
    rewrite ?Z.bits_0;
    destruct (Z.testbit (Z.shiftr a 1) i), (Z.testbit (Z.shiftr b 1) i),
      (Z.testbit poly i); reflexivity.
Qed.

Lemma crc_shift_0 : crc_shift 0 = 0.
Proof. reflexivity. Qed.

Lemma crc_iter_lxor k a b :
  Nat.iter k crc_shift (Z.lxor a b) =
  Z.lxor (Nat.iter k crc_shift a) (Nat.iter k crc_shift b).
Proof.
  induction k as [|k IH]; [reflexivity|].
  rewrite !Nat.iter_succ. now rewrite IH, crc_shift_lxor.
Qed.

Lemma crc_shift_u32 x : 0 <= x < 2 ^ 32 -> 0 <= crc_shift x < 2 ^ 32.
Proof.
  intros Hx. rewrite crc_shift_testbit. apply lxor_u32.
  - rewrite Z.shiftr_div_pow2 by lia. split.
    + apply Z.div_pos; lia.
    + apply Z.div_lt_upper_bound; lia.
  - destruct (Z.testbit x 0); unfold poly; lia.
Qed.

(** One round of the register loses nothing: only 0 is sent to 0. *)
Lemma crc_shift_zero x : 0 <= x < 2 ^ 32 -> crc_shift x = 0 -> x = 0.
Proof.
  intros Hx H0. rewrite crc_shift_testbit in H0.
  destruct (Z.testbit x 0) eqn:Hb.
  - exfalso.
    assert (Hbit : Z.testbit (Z.lxor (Z.shiftr x 1) poly) 31 = true).
    { rewrite Z.lxor_spec, Z.shiftr_spec by lia.
      rewrite (testbit_high_zero x (31 + 1)) by lia. reflexivity. }
    rewrite H0, Z.bits_0 in Hbit. discriminate.
  - rewrite Z.lxor_0_r in H0.
    rewrite (bit0_split x), Hb, H0. reflexivity.
Qed.

Lemma crc_iter_u32 k x :
  0 <= x < 2 ^ 32 -> 0 <= Nat.iter k crc_shift x < 2 ^ 32.
Proof.
  intros Hx. induction k as [|k IH]; [exact Hx|].
  rewrite Nat.iter_succ. now apply crc_shift_u32.
Qed.

Lemma crc_iter_zero k x :
  0 <= x < 2 ^ 32 -> Nat.iter k crc_shift x = 0 -> x = 0.
Proof.
  intros Hx. induction k as [|k IH]; [trivial|].
  rewrite Nat.iter_succ. intros H0. apply IH.
  apply crc_shift_zero; [now apply crc_iter_u32|exact H0].
Qed.

Lemma lxor_eq_zero a b : Z.lxor a b = 0 -> a = b.
Proof. apply Z.lxor_eq. Qed.

Lemma byte_u32 d : is_byte d -> 0 <= d < 2 ^ 32.
Proof. unfold is_byte. lia. Qed.

(** Two registers that differ still differ after the same byte. *)
Lemma crc32_update_inj c c' d :
  0 <= c < 2 ^ 32 -> 0 <= c' < 2 ^ 32 -> is_byte d ->
  crc32_update c d = crc32_update c' d -> c = c'.
Proof.
  intros Hc Hc' Hd Heq.
  rewrite !crc32_update_iter in Heq by assumption.
  apply lxor_eq_zero.
  apply (crc_iter_zero 8); [now apply lxor_u32|].
  replace (Z.lxor c c') with (Z.lxor (Z.lxor c d) (Z.lxor c' d)).
  - rewrite crc_iter_lxor, Heq. apply Z.lxor_nilpotent.
  - apply Z.bits_inj'. intros i Hi. rewrite !Z.lxor_spec.
    now destruct (Z.testbit c i), (Z.testbit c' i), (Z.testbit d i).
Qed.

(** Two different bytes leave the same register different. *)
Lemma crc32_update_byte_inj c d d' :
  is_byte d -> is_byte d' ->
  crc32_update c d = crc32_update c d' -> d = d'.
Proof.
  intros Hd Hd' Heq.
  rewrite !crc32_update_iter in Heq by assumption.
  apply lxor_eq_zero.
  apply (crc_iter_zero 8); [apply lxor_u32; now apply byte_u32|].
  replace (Z.lxor d d') with (Z.lxor (Z.lxor c d) (Z.lxor c d')).
  - rewrite crc_iter_lxor, Heq. apply Z.lxor_nilpotent.
  - apply Z.bits_inj'. intros i Hi. rewrite !Z.lxor_spec.
    now destruct (Z.testbit c i), (Z.testbit d i), (Z.testbit d' i).
Qed.

Lemma fold_update_u32 data : forall c,
  0 <= c < 2 ^ 32 -> 0 <= fold_left crc32_update data c < 2 ^ 32.
Proof.
  induction data as [|d data IH]; intros c Hc; [exact Hc|].
  cbn [fold_left]. apply IH, crc32_update_u32, Hc.
Qed.

Lemma fold_update_inj data : forall c c',
  Forall is_byte data ->
  0 <= c < 2 ^ 32 -> 0 <= c' < 2 ^ 32 ->
  fold_left crc32_update data c = fold_left crc32_update data c' -> c = c'.
Proof.
  induction data as [|d data IH]; intros c c' Hb Hc Hc' Heq; [exact Heq|].
  apply Forall_cons_1 in Hb as [Hd Hb]. cbn [fold_left] in Heq.
  apply IH in Heq; [|assumption|now apply crc32_update_u32..].
  now apply (crc32_update_inj c c' d).
Qed.

End Crc32Errors.

(** X1.  [crc32_compute] tells apart any two messages of the same
    length that differ in exactly one byte (so in any 1 to 8 bits of one
    byte) and agree before and after it, whatever precedes that byte and
    for every sequence of bytes after it. *)
Theorem crc32_detects_byte_error (pre post : list Z) (d d' : Z) :
  Crc32.is_byte d -> Crc32.is_byte d' -> Forall Crc32.is_byte post ->
  d <> d' ->
  Crc32.crc32_compute (pre ++ d :: post) <> Crc32.crc32_compute (pre ++ d' :: post).
Proof.
  intros Hd Hd' Hpost Hne Heq. apply Hne.
  unfold Crc32.crc32_compute in Heq.
  apply (f_equal (fun x => Z.lxor x 0xFFFFFFFF)) in Heq.
  rewrite !Z.lxor_assoc, !Z.lxor_nilpotent, !Z.lxor_0_r in Heq.
  rewrite !fold_left_app in Heq. cbn [fold_left] in Heq.
  assert (Hc : 0 <= fold_left Crc32.crc32_update pre 0xFFFFFFFF < 2 ^ 32)
    by (apply fold_update_u32; lia).
  apply fold_update_inj in Heq;
    [|assumption|now apply crc32_update_u32..].
  exact (crc32_update_byte_inj _ d d' Hd Hd' Heq).
Qed.

(** X1 on "hallo" against "hello". *)
Lemma crc32_detects_byte_error_witness :
  Crc32.is_byte 0x61 /\ Crc32.is_byte 0x65 /\
  Forall Crc32.is_byte [0x6C; 0x6C; 0x6F] /\ 0x61 <> 0x65 /\
  Crc32.crc32_compute ([0x68] ++ 0x61 :: [0x6C; 0x6C; 0x6F]) <>
  Crc32.crc32_compute ([0x68] ++ 0x65 :: [0x6C; 0x6C; 0x6F]).
Proof.
  assert (H1 : Crc32.is_byte 0x61) by (unfold Crc32.is_byte; lia).
  assert (H2 : Crc32.is_byte 0x65) by (unfold Crc32.is_byte; lia).
  assert (H3 : Forall Crc32.is_byte [0x6C; 0x6C; 0x6F])
    by (repeat constructor; unfold Crc32.is_byte; lia).
  assert (H4 : 0x61 <> 0x65) by lia.
  splits; [exact H1|exact H2|exact H3|exact H4|].
  exact (crc32_detects_byte_error [0x68] [0x6C; 0x6C; 0x6F] 0x61 0x65 H1 H2 H3 H4).
Defined.

(* ===================================================================== *)
(** * Further properties: polarity                                        *)
(* ===================================================================== *)

Section PolarityProofs.
Import Params Receiver.
Variables (fs : Z) (tone : Z -> Z -> bool).

Local Abbreviation spb := (Receiver.spb fs).

Lemma detected_flip start :
  detected fs tone start 1 = 1 - detected fs tone start 0.
Proof.
  unfold detected, detect_bit_q. cbn. now destruct (tone start spb).
Qed.

Lemma ones_flip (f : nat -> Z) (l : list nat) :
  fold_right Z.add 0 (map (fun r => 1 - f r) l) =
  Z.of_nat (length l) - fold_right Z.add 0 (map f l).
Proof.
  induction l as [|r l IH]; [reflexivity|].
  cbn [map fold_right length]. rewrite IH. lia.
Qed.

Lemma ones_range (f : nat -> Z) (l : list nat) :
  (forall r, f r = 0 \/ f r = 1) ->
  0 <= fold_right Z.add 0 (map f l) <= Z.of_nat (length l).
Proof.
  intros Hf. induction l as [|r l IH]; [simpl; lia|].
  cbn [map fold_right length]. destruct (Hf r); lia.
Qed.

(** The majority vote of an odd number of symbols is complemented with
    the polarity. *)
Lemma coded_bit_flip pos :
  coded_bit fs tone pos 1 = 1 - coded_bit fs tone pos 0.
Proof.
  rewrite !coded_bit_value.
  rewrite (map_ext (fun r => detected fs tone (pos + Z.of_nat r * spb) 1)
                   (fun r => 1 - detected fs tone (pos + Z.of_nat r * spb) 0))
    by (intros r; apply detected_flip).
  rewrite ones_flip, length_seq.
  change (Z.of_nat (Z.to_nat REP)) with 3. change (REP / 2) with 1.
  set (ones := fold_right Z.add 0 _).
  destruct (Z.gtb_spec (3 - ones) 1), (Z.gtb_spec ones 1); lia.
Qed.

Lemma horner_flip (l : list Z) : forall v v',
  fold_left (fun v b => 2 * v + b) (map (fun b => 1 - b) l) v' =
  (v + v' + 1) * 2 ^ Z.of_nat (length l) - 1
  - fold_left (fun v b => 2 * v + b) l v.
Proof.
  induction l as [|b l IH]; intros v v'.
  - simpl. lia.
  - cbn [map fold_left length]. rewrite (IH (2 * v + b)).
    rewrite Nat2Z.inj_succ, Z.pow_succ_r by lia. lia.
Qed.

Lemma decode_byte_flip pos :
  fst (fst (decode_byte fs tone pos 1)) =
  255 - fst (fst (decode_byte fs tone pos 0)).
Proof.
  rewrite !decode_byte_value. cbn [fst].
  rewrite (map_ext (fun j => coded_bit fs tone (pos + Z.of_nat j * (REP * spb)) 1)
                   (fun j => 1 - coded_bit fs tone (pos + Z.of_nat j * (REP * spb)) 0))
    by (intros j; apply coded_bit_flip).
  rewrite <- (map_map (fun j => coded_bit fs tone (pos + Z.of_nat j * (REP * spb)) 0)
                      (fun b => 1 - b)).
  rewrite (horner_flip _ 0 0), length_map, length_seq. reflexivity.
Qed.

Lemma bytes_at_succ k pos invert :
  bytes_at fs tone (S k) pos invert =
  fst (fst (decode_byte fs tone pos invert)) ::
  bytes_at fs tone k (pos + 8 * REP * spb) invert.
Proof.
  unfold bytes_at. cbn [decode_bytes]. rewrite fst_bind.
  pose proof (decode_byte_value fs tone pos invert) as Hb.
  destruct (fst (decode_byte fs tone pos invert)) as [v pos1].
  injection Hb as _ Hp. rewrite fst_bind. subst pos1.
  destruct (fst (decode_bytes fs tone k (pos + 8 * REP * spb) invert)).
  reflexivity.
Qed.

Lemma bytes_at_flip k : forall pos,
  bytes_at fs tone k pos 1 = map (fun v => 255 - v) (bytes_at fs tone k pos 0).
Proof.
  induction k as [|k IH]; intros pos; [reflexivity|].
  rewrite !bytes_at_succ. cbn [map]. now rewrite IH, decode_byte_flip.
Qed.

Lemma is_magic_flip (m : list Z) :
  is_magic m = true -> is_magic (map (fun v => 255 - v) m) = false.
Proof.
  destruct m as [|m0 [|m1 [|m2 [|m3 [|]]]]]; try discriminate.
  cbn [is_magic map]. intros H.
  apply andb_prop in H as [H _]. apply andb_prop in H as [H _].
  apply andb_prop in H as [H _]. apply Z.eqb_eq in H. subst m0. reflexivity.
Qed.

Lemma magic_one_polarity p :
  magic_at fs tone (p, 0) = true -> magic_at fs tone (p, 1) = false.
Proof.
  unfold magic_at. cbn [fst snd]. rewrite bytes_at_flip. apply is_magic_flip.
Qed.

Lemma find_flat_map_ext {A B} (f : B -> bool) (g h : A -> list B) l :
  (forall d, find f (g d) = find f (h d)) ->
  find f (flat_map g l) = find f (flat_map h l).
Proof.
  intros Hgh. induction l as [|d l IH]; [reflexivity|].
  cbn [flat_map]. now rewrite !find_app, Hgh, IH.
Qed.

(** Trying the polarities in either order finds the same candidate. *)
Lemma find_polarity_order n base best_inv :
  best_inv = 0 \/ best_inv = 1 ->
  find (magic_at fs tone) (refine_candidates n fs base) =
  find (magic_at fs tone) (Link.candidates_best_first n fs base best_inv).
Proof.
  intros Hinv. unfold refine_candidates, candidates_from,
    Link.candidates_best_first.
  apply find_flat_map_ext. intros d.
  destruct (refine_guard n fs (base + d)); [|reflexivity].
  destruct Hinv as [-> | ->]; [reflexivity|].
  change (1 - 1) with 0. cbn [find].
  destruct (magic_at fs tone (base + d, 0)) eqn:H0.
  - now rewrite magic_one_polarity.
  - now destruct (magic_at fs tone (base + d, 1)).
Qed.

End PolarityProofs.

(** X2.  Reading with the opposite polarity complements every decoded
    byte ([255 - v], the majority of an odd number of symbols flips with
    them), so at no position do both polarities read the magic. *)
Theorem polarity_complements_bytes (fs : Z) (tone : Z -> Z -> bool)
    (k : nat) (pos : Z) :
  Receiver.bytes_at fs tone k pos 1 =
    map (fun v => 255 - v) (Receiver.bytes_at fs tone k pos 0) /\
  (Receiver.magic_at fs tone (pos, 0) = true ->
   Receiver.magic_at fs tone (pos, 1) = false) /\
  (Receiver.magic_at fs tone (pos, 1) = true ->
   Receiver.magic_at fs tone (pos, 0) = false).
Proof.
  splits.
  - apply bytes_at_flip.
  - apply magic_one_polarity.
  - intros H1. destruct (Receiver.magic_at fs tone (pos, 0)) eqn:H0; [|reflexivity].
    apply magic_one_polarity in H0. congruence.
Qed.

(** X3.  The order in which the refinement tries the two polarities
    cannot be observed in its result: the position and polarity it
    accepts are those of the first match in the order that tries the
    polarity of the coarse search first at every position. *)
Theorem refine_result_any_polarity_order (n fs : Z) (tone : Z -> Z -> bool)
    (base best_inv : Z) :
  40 <= Receiver.spb fs ->
  best_inv = 0 \/ best_inv = 1 ->
  fst (Receiver.refine n fs tone base best_inv) =
  Some (match find (Receiver.magic_at fs tone)
                (Link.candidates_best_first n fs base best_inv) with
        | Some c => c
        | None => (-1, best_inv)
        end).
Proof.
  intros Hspb Hinv.
  destruct (refine_loop_spec n fs tone (Receiver.refine_fuel fs) best_inv base
              (- Receiver.spb fs)) as [Hfst _];
    [unfold Receiver.refine_fuel; lia..|].
  cbv zeta in Hfst. unfold Receiver.refine. rewrite Hfst.
  fold (Receiver.refine_candidates n fs base).
  now rewrite (find_polarity_order fs tone n base best_inv Hinv).
Qed.

(** X3 on the capture with the tones exchanged, where the coarse search
    finds polarity 1. *)
Lemma refine_result_any_polarity_order_witness :
  40 <= Receiver.spb 8000 /\ (1 = 0 \/ 1 = 1) /\
  fst (Receiver.refine 49440 8000 Scenarios.swapped 12000 1) =
  Some (match find (Receiver.magic_at 8000 Scenarios.swapped)
                (Link.candidates_best_first 49440 8000 12000 1) with
        | Some c => c
        | None => (-1, 1)
        end).
Proof.
  assert (H : 40 <= Receiver.spb 8000) by (vm_compute; discriminate).
  splits; [exact H|right; reflexivity|].
  exact (refine_result_any_polarity_order 49440 8000 Scenarios.swapped 12000 1
           H (or_intror eq_refl)).
Defined.

(* ===================================================================== *)
(** * Further properties: preamble scores                                 *)
(* ===================================================================== *)

Section ScoreProofs.
Import Params Receiver.
Variables (n fs : Z) (tone : Z -> Z -> bool).

Local Abbreviation spb := (Receiver.spb fs).

Lemma score_loop_bounds k : forall b score off invert,
  score <= fst (score_preamble_loop n fs tone k b score off invert)
        <= score + Z.of_nat k.
Proof.
  induction k as [|k IH]; intros b score off invert.
  - simpl. lia.
  - cbn [score_preamble_loop].
    destruct (off + b * spb + spb >=? n); [simpl; lia|].
    rewrite fst_bind.
    match goal with
    | |- context [score_preamble_loop n fs tone k (b + 1) ?s off invert] =>
        specialize (IH (b + 1) s off invert);
        assert (Hs : score <= s <= score + 1) by (destruct (_ =? _); lia)
    end.
    lia.
Qed.

Lemma score_at_bounds off invert :
  0 <= score_at n fs tone off invert <= pre_bits.
Proof.
  unfold score_at, score_preamble. rewrite fst_bind.
  pose proof (score_loop_bounds (Z.to_nat pre_bits) 0 0 off invert) as H.
  change (Z.of_nat (Z.to_nat pre_bits)) with pre_bits in H. exact H.
Qed.

(** When all [k] windows fit, each of them matches under exactly one
    polarity. *)
Lemma score_loop_sum k : forall b s0 s1 off,
  0 <= spb -> off + (b + Z.of_nat k) * spb < n ->
  fst (score_preamble_loop n fs tone k b s0 off 0) +
  fst (score_preamble_loop n fs tone k b s1 off 1) = s0 + s1 + Z.of_nat k.
Proof.
  induction k as [|k IH]; intros b s0 s1 off Hspb Hfit.
  - simpl. lia.
  - cbn [score_preamble_loop].
    rewrite Nat2Z.inj_succ in Hfit |- *.
    assert (Hk : 0 <= Z.of_nat k * spb) by nia.
    assert (Hexp : (b + Z.succ (Z.of_nat k)) * spb =
                   b * spb + spb + Z.of_nat k * spb) by ring.
    assert (Hexp' : (b + 1 + Z.of_nat k) * spb =
                    b * spb + spb + Z.of_nat k * spb) by ring.
    destruct (Z.geb_spec (off + b * spb + spb) n) as [Hge|_];
      [exfalso; lia|].
    rewrite !fst_bind.
    fold (detected fs tone (off + b * spb) 0).
    fold (detected fs tone (off + b * spb) 1).
    rewrite detected_flip.
    rewrite IH by (try assumption; lia).
    destruct (detected_bit fs tone (off + b * spb) 0) as [-> | ->];
      destruct (Z.land b 1 =? 0);
      repeat match goal with
             | |- context [?x =? ?y] => destruct (Z.eqb_spec x y)
             end; lia.
Qed.

Lemma score_at_sum off :
  0 <= spb -> off + pre_bits * spb < n ->
  score_at n fs tone off 0 + score_at n fs tone off 1 = pre_bits.
Proof.
  intros Hspb Hfit. unfold score_at, score_preamble. rewrite !fst_bind.
  rewrite score_loop_sum; [reflexivity|assumption|].
  change (Z.of_nat (Z.to_nat pre_bits)) with pre_bits. lia.
Qed.

End ScoreProofs.

(** X4.  A preamble score lies between 0 and [pre_bits], and when the
    whole preamble window lies inside the capture, as at every offset the
    coarse search scores, the scores of the two polarities add up to
    [pre_bits]: the better polarity scores at least half. *)
Theorem score_polarities_sum (n fs : Z) (tone : Z -> Z -> bool) (off : Z) :
  0 <= Receiver.spb fs ->
  off + Params.pre_bits * Receiver.spb fs < n ->
  Receiver.score_at n fs tone off 0 + Receiver.score_at n fs tone off 1 =
    Params.pre_bits /\
  (forall invert, 0 <= Receiver.score_at n fs tone off invert <= Params.pre_bits) /\
  Params.pre_bits <=
    2 * Z.max (Receiver.score_at n fs tone off 0) (Receiver.score_at n fs tone off 1).
Proof.
  intros Hspb Hfit.
  pose proof (score_at_sum n fs tone off Hspb Hfit) as Hsum.
  splits.
  - exact Hsum.
  - intros invert. apply score_at_bounds.
  - lia.
Qed.

(** X4 at offset 0 of 12050 silent samples at 8000 Hz: 50 and 50. *)
Lemma score_polarities_sum_witness :
  0 <= Receiver.spb 8000 /\
  0 + Params.pre_bits * Receiver.spb 8000 < 12050 /\
  Receiver.score_at 12050 8000 Scenarios.low_tone 0 0 +
  Receiver.score_at 12050 8000 Scenarios.low_tone 0 1 = Params.pre_bits.
Proof.
  assert (H1 : 0 <= Receiver.spb 8000) by (vm_compute; discriminate).
  assert (H2 : 0 + Params.pre_bits * Receiver.spb 8000 < 12050)
    by (vm_compute; reflexivity).
  splits; [exact H1|exact H2|].
  exact (proj1 (score_polarities_sum 12050 8000 Scenarios.low_tone 0 H1 H2)).
Defined.

(* ===================================================================== *)
(** * Further properties: the exits of the receiver                       *)
(* ===================================================================== *)

Section ExitProofs.
Import Params Receiver.
Variables (n fs : Z) (tone : Z -> Z -> bool).
Variable decrypt : list Z -> option (list Z).

Local Abbreviation spb := (Receiver.spb fs).
Local Abbreviation search_max := (Receiver.search_max n fs).
Local Abbreviation step := (Receiver.step fs).

(** Three seconds of samples hold more than the preamble. *)
Lemma preamble_shorter_than_search : 40 <= spb -> pre_bits * spb < 3 * fs.
Proof.
  unfold Receiver.spb, spb_of_fs. intros Hspb.
  pose proof (Z.mul_div_le (3 * fs + 100) 200 ltac:(lia)).
  change pre_bits with 100. lia.
Qed.

Lemma search_max_short :
  40 <= spb -> (search_max <= pre_bits * spb <-> n <= pre_bits * spb).
Proof.
  intros Hspb. pose proof (preamble_shorter_than_search Hspb).
  unfold Receiver.search_max. destruct (Z.gtb_spec (3 * fs) n); lia.
Qed.

Lemma improve_locked st off inv s :
  0 <= off -> inv = 0 \/ inv = 1 -> Link.locked st -> Link.locked (improve st off inv s).
Proof.
  intros Hoff Hinv Hst. unfold improve.
  destruct (s >? best_score st); [split; assumption|exact Hst].
Qed.

Lemma improve_first st off s :
  0 <= off -> best_score st < 0 -> 0 <= s -> Link.locked (improve st off 0 s).
Proof.
  intros Hoff Hneg Hs. unfold improve.
  destruct (Z.gtb_spec s (best_score st)); [|lia].
  split; [exact Hoff|now left].
Qed.

Lemma coarse_loop_locked fuel : forall off st c,
  0 <= off ->
  fst (coarse_loop n fs tone fuel off st) = Some c ->
  (Link.locked st -> Link.locked c) /\
  (best_score st < 0 -> off + pre_bits * spb < search_max -> Link.locked c) /\
  (~ off + pre_bits * spb < search_max -> c = st).
Proof.
  pose proof (step_pos fs) as Hstep.
  induction fuel as [|fuel IH]; intros off st c Hoff Hres; [discriminate|].
  destruct (Z_lt_ge_dec (off + pre_bits * spb) search_max) as [Hguard|Hguard].
  - destruct (coarse_loop_iter n fs tone fuel off st Hguard) as [Hfst _].
    cbv zeta in Hfst. rewrite Hfst in Hres. clear Hfst.
    set (st1 := improve st off 0 (score_at n fs tone off 0)) in *.
    set (st2 := improve st1 off 1 (score_at n fs tone off 1)) in *.
    assert (H12 : Link.locked st1 -> Link.locked st2)
      by (apply improve_locked; [assumption|now right]).
    assert (Hl : Link.locked st -> Link.locked st2).
    { intros Hst. apply H12, improve_locked; [assumption|now left|exact Hst]. }
    assert (Hn : best_score st < 0 -> Link.locked st2).
    { intros Hneg. apply H12, improve_first; [assumption..|].
      apply score_at_bounds. }
    assert (Hc : Link.locked st2 -> Link.locked c).
    { destruct (best_score st2 >? early_stop).
      - injection Hres as <-. trivial.
      - apply (IH (off + step) st2 c ltac:(lia) Hres). }
    splits; [tauto|tauto|lia].
  - rewrite coarse_loop_exit in Hres by lia. injection Hres as <-.
    splits; [trivial|lia|reflexivity].
Qed.

(** The coarse search ends without an offset exactly when the capture is
    no longer than the preamble; otherwise it holds an offset and a
    polarity. *)
Lemma coarse_search_locked c :
  40 <= spb ->
  fst (coarse_search n fs tone) = Some c ->
  (n <= pre_bits * spb -> best_off c = -1) /\
  (pre_bits * spb < n -> Link.locked c).
Proof.
  intros Hspb Hres. unfold coarse_search in Hres.
  destruct (coarse_loop_locked _ 0 _ c ltac:(lia) Hres) as (_ & Hlock & Hsame).
  pose proof (search_max_short Hspb) as Hshort. split.
  - intros Hn. rewrite Hsame by lia. reflexivity.
  - intros Hn. apply Hlock; cbn [best_score]; lia.
Qed.

(** What [decode_frame] returns at a position where the magic is read. *)
Lemma decode_frame_outcome pos invert :
  magic_at fs tone (pos, invert) = true ->
  let LEN := header_len fs tone pos invert in
  let hdr := bytes_at fs tone 8 pos invert in
  let body := bytes_at fs tone (Z.to_nat LEN) (pos + 8 * (8 * REP * spb)) invert in
  let crc_bytes :=
    bytes_at fs tone 4
      (pos + 8 * (8 * REP * spb) + Z.of_nat (Z.to_nat LEN) * (8 * REP * spb))
      invert in
  fst (decode_frame fs tone decrypt pos invert) = inl BadLen \/
  fst (decode_frame fs tone decrypt pos invert) = inl CrcMismatch \/
  fst (decode_frame fs tone decrypt pos invert) = inl DecryptFailed \/
  exists plain,
    fst (decode_frame fs tone decrypt pos invert) = inr plain /\
    0 < LEN <= 2000000 /\
    Crc32.crc32_compute (hdr ++ body) = be32 crc_bytes /\
    decrypt body = Some plain.
Proof.
  intros Hmagic LEN hdr body crc_bytes.
  rewrite decode_frame_cases, Hmagic. unfold negb at 1. fold LEN.
  destruct (Z.eqb_spec LEN 0) as [H0|H0]; [now left|].
  destruct (Z.gtb_spec LEN 2000000) as [Hbig|Hbig]; [now left|].
  cbn [orb fst]. fold hdr body crc_bytes.
  destruct (Z.eqb_spec (Crc32.crc32_compute (hdr ++ body)) (be32 crc_bytes))
    as [Hcrc|Hcrc]; cbn [negb]; [|now right; left].
  destruct (decrypt body) as [plain|] eqn:Hdec; [|now right; right; left].
  right; right; right. exists plain. splits; try reflexivity; try assumption.
  - assert (0 <= LEN).
    { subst LEN. unfold header_len, be32, be32_of.
      assert (Hb : forall v, In v (bytes_at fs tone 8 pos invert) -> 0 <= v).
      { clear. intros v Hin. revert v Hin. generalize 8%nat as k.
        intros k. revert pos. induction k as [|k IH]; intros pos v Hin;
          [destruct Hin|].
        rewrite bytes_at_succ in Hin. destruct Hin as [<-|Hin];
          [|now apply (IH _ _ Hin)].
        unfold decode_byte. cbn [decode_byte_loop]. rewrite !fst_bind.
        cbn [fst]. apply Z.mod_pos_bound. lia. }
      assert (Hnth : forall i, 0 <= nth i (drop 4 (bytes_at fs tone 8 pos invert)) 0).
      { intros i. destruct (nth_in_or_default i
                              (drop 4 (bytes_at fs tone 8 pos invert)) 0)
          as [Hin| ->]; [|lia].
        apply Hb. rewrite <- (take_drop 4 (bytes_at fs tone 8 pos invert)).
        apply in_or_app. now right. }
      apply Z.lor_nonneg; split;
        [apply Z.lor_nonneg; split; [apply Z.lor_nonneg; split|]|];
        try apply Z.shiftl_nonneg; apply Hnth. }
    lia.
Qed.

(** The stages of [main] on a capture that passes the first two tests. *)
Lemma main_stages :
  0 < n -> 40 <= spb ->
  exists c,
    fst (coarse_search n fs tone) = Some c /\
    ((best_off c < 0 /\
      fst (main n fs tone decrypt) = Some (inl SyncNotFound)) \/
     (0 <= best_off c /\
      exists pos invert,
        fst (refine n fs tone (best_off c + pre_bits * spb) (best_inv c))
          = Some (pos, invert) /\
        ((pos < 0 /\
          fst (main n fs tone decrypt) = Some (inl MagicNotFound)) \/
         (0 <= pos /\
          magic_at fs tone (pos, invert) = true /\
          fst (main n fs tone decrypt) =
            Some (fst (decode_frame fs tone decrypt pos invert)))))).
Proof.
  intros Hn Hspb. unfold main.
  destruct (Z.leb_spec n 0) as [|_]; [lia|].
  destruct (Z.ltb_spec spb 40) as [|_]; [lia|].
  rewrite fst_bind.
  destruct (coarse_search_inv n fs tone ltac:(lia)) as (m & c & Hc & _).
  exists c. split; [exact Hc|]. rewrite Hc.
  destruct (Z.ltb_spec (best_off c) 0) as [Hneg|Hoff]; [left; now split|].
  right. split; [exact Hoff|]. rewrite fst_bind.
  destruct (refine_loop_spec n fs tone (refine_fuel fs) (best_inv c)
              (best_off c + pre_bits * spb) (- spb)) as [Hfst _];
    [unfold refine_fuel; lia..|].
  cbv zeta in Hfst.
  assert (Hr : exists pos invert,
             fst (refine n fs tone (best_off c + pre_bits * spb) (best_inv c))
             = Some (pos, invert)).
  { unfold refine. rewrite Hfst. destruct (match find _ _ with
                                           | Some c0 => c0 | None => _ end).
    eauto. }
  destruct Hr as (pos & invert & Hr). exists pos, invert.
  split; [exact Hr|]. rewrite Hr.
  destruct (Z.ltb_spec pos 0) as [Hp|Hp]; [left; now split|].
  right. split; [exact Hp|]. split.
  - exact (refine_accepts_magic n fs tone _ _ pos invert Hspb Hr Hp).
  - now rewrite fst_bind.
Qed.

End ExitProofs.

Lemma some_eq_inv {A} (a b : A) : Some a = Some b -> a = b.
Proof. intros H. congruence. Qed.

(** Every run of [main] by its exit. *)
Lemma main_outcome (n fs : Z) (tone : Z -> Z -> bool)
    (decrypt : list Z -> option (list Z)) :
  let spb := Receiver.spb fs in
  let result := fst (Receiver.main n fs tone decrypt) in
  (n <= 0 /\ result = Some (inl Receiver.IoError)) \/
  (0 < n /\ spb < 40 /\ result = Some (inl Receiver.ConfigError)) \/
  (0 < n /\ 40 <= spb /\ n <= Params.pre_bits * spb /\
   result = Some (inl Receiver.SyncNotFound)) \/
  (0 < n /\ 40 <= spb /\ Params.pre_bits * spb < n /\
   (result = Some (inl Receiver.MagicNotFound) \/
    exists pos invert,
      0 <= pos /\
      Receiver.magic_at fs tone (pos, invert) = true /\
      result = Some (fst (Receiver.decode_frame fs tone decrypt pos invert)))).
Proof.
  intros spb result. subst result.
  destruct (Z_le_gt_dec n 0) as [Hn|Hn].
  { left. split; [exact Hn|]. unfold Receiver.main.
    destruct (Z.leb_spec n 0); [reflexivity|lia]. }
  destruct (Z_lt_ge_dec spb 40) as [Hs|Hs].
  { right; left. splits; [lia|exact Hs|]. unfold Receiver.main.
    destruct (Z.leb_spec n 0); [lia|].
    destruct (Z.ltb_spec (Receiver.spb fs) 40); [reflexivity|subst spb; lia]. }
  destruct (main_stages n fs tone decrypt ltac:(lia) ltac:(subst spb; lia))
    as (c & Hc & Hcase).
  destruct (coarse_search_locked n fs tone c ltac:(subst spb; lia) Hc)
    as [Hshort Hlong].
  destruct Hcase as [[Hneg Hres] | (Hoff & pos & invert & Hr & Hcase)].
  - assert (Hle : n <= Params.pre_bits * spb).
    { destruct (Z_le_gt_dec n (Params.pre_bits * spb)) as [|Hgt]; [assumption|].
      destruct (Hlong ltac:(subst spb; lia)) as [Hlock _]. lia. }
    right; right; left. splits; [lia|lia|exact Hle|exact Hres].
  - assert (Hgt : Params.pre_bits * spb < n).
    { destruct (Z_le_gt_dec n (Params.pre_bits * spb)) as [Hle|Hgt]; [|lia].
      specialize (Hshort Hle). lia. }
    right; right; right. splits; [lia|lia|exact Hgt|].
    destruct Hcase as [[_ Hres] | (Hp & Hm & Hres)]; [now left|].
    right. exists pos, invert. now splits.
Qed.


(** X6.  The exit "MAGIC mismatch (should not happen after refine)" is
    never taken: the header is decoded at the position and polarity at
    which the refinement has just read the magic. *)
Theorem magic_mismatch_unreachable (n fs : Z) (tone : Z -> Z -> bool)
    (decrypt : list Z -> option (list Z)) :
  fst (Receiver.main n fs tone decrypt) <> Some (inl Receiver.MagicMismatch).
Proof.
  pose proof (main_outcome n fs tone decrypt) as H. cbv zeta in H.
  destruct H as [[Hn Hr]|[(Hn & Hs & Hr)|[(Hn & Hs & Hl & Hr)|
                 (Hn & Hs & Hl & [Hr|(pos & invert & Hp & Hm & Hr)])]]];
    rewrite Hr; try discriminate.
  intros He. apply some_eq_inv in He.
  destruct (decode_frame_outcome fs tone decrypt pos invert Hm)
    as [Ho|[Ho|[Ho|(plain & Ho & _)]]]; rewrite Ho in He; discriminate.
Qed.

(** X7.  The receiver prints a plaintext only after every test has
    passed: the capture is longer than the preamble, the coarse search
    has locked on an offset [best_off >= 0], the refinement started at
    [best_off + pre_bits * spb] with the coarse polarity has returned a
    position [pos >= 0] and a polarity at which the magic is read, the
    length field satisfies [0 < LEN <= 2,000,000], the CRC computed over
    the header and ciphertext decoded from [pos] equals the decoded CRC
    field, and the plaintext is the decryption of the [LEN] decoded
    ciphertext bytes. *)
Theorem plaintext_only_after_checks (n fs : Z) (tone : Z -> Z -> bool)
    (decrypt : list Z -> option (list Z)) (plain : list Z) :
  fst (Receiver.main n fs tone decrypt) = Some (inr plain) ->
  let spb := Receiver.spb fs in
  let byte_len := 8 * Params.REP * spb in
  0 < n /\ 40 <= spb /\ Params.pre_bits * spb < n /\
  exists c pos invert,
    let LEN := Receiver.header_len fs tone pos invert in
    let hdr := Receiver.bytes_at fs tone 8 pos invert in
    let body := Receiver.bytes_at fs tone (Z.to_nat LEN) (pos + 8 * byte_len) invert in
    let crc_bytes :=
      Receiver.bytes_at fs tone 4 (pos + 8 * byte_len + LEN * byte_len) invert in
    fst (Receiver.coarse_search n fs tone) = Some c /\
    0 <= Receiver.best_off c /\
    fst (Receiver.refine n fs tone
           (Receiver.best_off c + Params.pre_bits * spb) (Receiver.best_inv c))
      = Some (pos, invert) /\
    0 <= pos /\
    Receiver.bytes_at fs tone 4 pos invert = Params.MAGIC /\
    0 < LEN <= 2000000 /\
    Crc32.crc32_compute (hdr ++ body) = Receiver.be32 crc_bytes /\
    decrypt body = Some plain.
Proof.
  intros Hres spb byte_len.
  assert (Hpre : 0 < n /\ 40 <= spb /\ Params.pre_bits * spb < n).
  { pose proof (main_outcome n fs tone decrypt) as H. cbv zeta in H.
    fold spb in H.
    destruct H as [[Hn Hr]|[(Hn & Hs & Hr)|[(Hn & Hs & Hl & Hr)|
                   (Hn & Hs & Hl & _)]]];
      [rewrite Hr in Hres; discriminate Hres..|].
    splits; assumption. }
  destruct Hpre as (Hn & Hs & Hl).
  split; [exact Hn|]. split; [exact Hs|]. split; [exact Hl|].
  destruct (main_stages n fs tone decrypt Hn Hs) as (c & Hc & Hcase).
  destruct Hcase as [[_ Hr]|(Hoff & pos & invert & Href &
                             [[_ Hr]|(Hp & Hm & Hr)])];
    [rewrite Hr in Hres; discriminate Hres..|].
  rewrite Hr in Hres. apply some_eq_inv in Hres.
  exists c, pos, invert. cbv zeta.
  destruct (decode_frame_outcome fs tone decrypt pos invert Hm)
    as [Ho|[Ho|[Ho|(plain' & Ho & Hlen & Hcrc & Hdec)]]];
    rewrite Ho in Hres; try discriminate Hres.
  injection Hres as ->. cbv zeta in Hlen, Hcrc, Hdec.
  rewrite Z2Nat.id in Hcrc by lia.
  split; [exact Hc|]. split; [exact Hoff|]. split; [exact Href|].
  split; [exact Hp|]. split; [|split; [exact Hlen|split; [exact Hcrc|exact Hdec]]].
  unfold Receiver.magic_at in Hm. cbn [fst snd] in Hm.
  destruct (Receiver.bytes_at fs tone 4 pos invert) as [|m0 [|m1 [|m2 [|m3 [|]]]]];
    try discriminate Hm.
  cbn [Receiver.is_magic] in Hm.
  apply andb_prop in Hm as [Hm H3]. apply andb_prop in Hm as [Hm H2].
  apply andb_prop in Hm as [H0 H1].
  apply Z.eqb_eq in H0, H1, H2, H3. subst. reflexivity.
Qed.

(** X7 on the idealised capture of a whole transmission. *)
Lemma plaintext_only_after_checks_witness :
  fst (Receiver.main 49440 8000 Scenarios.clean Some) = Some (inr [0x41]) /\
  0 < 49440 /\ 40 <= Receiver.spb 8000 /\
  Params.pre_bits * Receiver.spb 8000 < 49440.
Proof.
  assert (H : fst (Receiver.main 49440 8000 Scenarios.clean Some)
              = Some (inr [0x41])) by (vm_compute; reflexivity).
  split; [exact H|].
  destruct (plaintext_only_after_checks 49440 8000 Scenarios.clean Some [0x41] H)
    as (H1 & H2 & H3 & _).
  splits; [exact H1|exact H2|exact H3].
Defined.

(* ===================================================================== *)
(** * Further properties: sender and receiver at the level of symbols     *)
(* ===================================================================== *)

Section SymbolStream.
Import Params.

Lemma nth_flat_map_chunks {A B} (g : A -> list B) (c : nat) (d' : A) (d : B) :
  (forall x, length (g x) = c) ->
  forall (l : list A) (i q : nat),
    (i < length l)%nat -> (q < c)%nat ->
    nth (i * c + q) (flat_map g l) d = nth q (g (nth i l d')) d.
Proof.
  intros Hc l. induction l as [|x l IH]; intros i q Hi Hq; [simpl in Hi; lia|].
  cbn [flat_map]. destruct i as [|i].
  - cbn [Nat.mul Nat.add nth]. apply app_nth1. rewrite Hc. exact Hq.
  - rewrite app_nth2 by (rewrite Hc; simpl; lia).
    rewrite Hc. replace (S i * c + q - c)%nat with (i * c + q)%nat by (simpl; lia).
    cbn [nth]. apply IH; [simpl in Hi; lia|exact Hq].
Qed.

Lemma byte_symbols_length byte :
  length (flat_map (fun bit => replicate (Z.to_nat REP) bit)
                   (Sender.byte_bits_msb byte)) = 24%nat.
Proof. reflexivity. Qed.

Lemma land_one_mod x : Z.land x 1 = x mod 2.
Proof. change 1 with (Z.ones 1). now rewrite Z.land_ones by lia. Qed.

Lemma land_one_cases x : Z.land x 1 = 0 \/ Z.land x 1 = 1.
Proof.
  rewrite land_one_mod. pose proof (Z.mod_pos_bound x 2 ltac:(lia)). lia.
Qed.

Lemma nth_map_seq {A} (f : nat -> A) (k b : nat) (d : A) :
  (b < k)%nat -> nth b (map f (seq 0 k)) d = f b.
Proof.
  intros Hb.
  rewrite (nth_indep _ d (f 0%nat)) by (rewrite length_map, length_seq; exact Hb).
  rewrite (map_nth f (seq 0 k) 0%nat b), seq_nth by exact Hb. reflexivity.
Qed.

(** Preamble symbol [b] is the parity of [b]. *)
Lemma tx_symbols_preamble frame b :
  (b < 100)%nat -> nth b (Sender.tx_symbols frame) 0 = Z.of_nat b mod 2.
Proof.
  intros Hb. unfold Sender.tx_symbols. change (Z.to_nat pre_bits) with 100%nat.
  rewrite app_nth1 by (rewrite length_map, length_seq; exact Hb).
  apply (nth_map_seq (fun b0 => Z.of_nat b0 mod 2)). exact Hb.
Qed.

(** Symbol [r] of bit [j] of byte [i] of the frame. *)
Lemma tx_symbols_data frame i j r :
  (i < length frame)%nat -> (j < 8)%nat -> (r < 3)%nat ->
  nth (100 + 24 * i + 3 * j + r) (Sender.tx_symbols frame) 0 =
  Z.land (Z.shiftr (nth i frame 0) (7 - Z.of_nat j)) 1.
Proof.
  intros Hi Hj Hr. unfold Sender.tx_symbols. change (Z.to_nat pre_bits) with 100%nat.
  rewrite app_nth2 by (rewrite length_map, length_seq; lia).
  rewrite length_map, length_seq.
  replace (100 + 24 * i + 3 * j + r - 100)%nat with (i * 24 + (j * 3 + r))%nat by lia.
  rewrite (nth_flat_map_chunks _ 24 0 0 byte_symbols_length) by lia.
  rewrite (nth_flat_map_chunks _ 3 0 0) by (first [reflexivity | unfold Sender.byte_bits_msb; rewrite length_map, length_seq; lia | lia]).
  change (Z.to_nat REP) with 3%nat.
  assert (Hrep : forall x : Z, nth r (replicate 3 x) 0 = x).
  { intros x. destruct r as [|[|[|r]]]; try reflexivity; lia. }
  rewrite Hrep. unfold Sender.byte_bits_msb.
  apply (nth_map_seq (fun k => Z.land (Z.shiftr (nth i frame 0) (7 - Z.of_nat k)) 1)).
  exact Hj.
Qed.

(** Eight bits, most significant first, give the byte back. *)
Lemma horner_byte_bits byte :
  Crc32.is_byte byte ->
  fold_left (fun v b => 2 * v + b)
    (map (fun j => Z.land (Z.shiftr byte (7 - Z.of_nat j)) 1) (seq 0 8)) 0 = byte.
Proof.
  intros Hb.
  assert (Hall : forallb
            (fun k => fold_left (fun v b => 2 * v + b)
                        (map (fun j => Z.land (Z.shiftr (Z.of_nat k) (7 - Z.of_nat j)) 1)
                             (seq 0 8)) 0 =? Z.of_nat k)
            (seq 0 256) = true) by (vm_compute; reflexivity).
  rewrite forallb_forall in Hall. unfold Crc32.is_byte in Hb.
  specialize (Hall (Z.to_nat byte)). rewrite Z2Nat.id in Hall by lia.
  apply Z.eqb_eq, Hall, in_seq. lia.
Qed.

Lemma drop_nth_cons {A} (l : list A) (d : A) : forall i,
  (i < length l)%nat -> drop i l = nth i l d :: drop (S i) l.
Proof.
  induction l as [|x l IH]; intros i Hi; [simpl in Hi; lia|].
  destruct i as [|i]; [reflexivity|].
  cbn [drop nth]. apply IH. simpl in Hi. lia.
Qed.

Lemma frame_spec_bytes cipher :
  Forall Crc32.is_byte cipher -> Forall Crc32.is_byte (Sender.frame_spec cipher).
Proof.
  intros Hc. unfold Sender.frame_spec, MAGIC, Sender.be32_bytes.
  assert (Hm : forall v, Crc32.is_byte (v mod 256))
    by (intros v; unfold Crc32.is_byte; apply Z.mod_pos_bound; lia).
  repeat (apply Forall_app; split);
    try exact Hc; repeat constructor; try apply Hm; unfold Crc32.is_byte; lia.
Qed.

Lemma frame_spec_length cipher :
  length (Sender.frame_spec cipher) = (8 + length cipher + 4)%nat.
Proof.
  unfold Sender.frame_spec. rewrite !length_app. simpl. lia.
Qed.

End SymbolStream.

Section LinkProofs.
Import Params Receiver.
Variables (n fs : Z) (tone : Z -> Z -> bool).
Variable decrypt : list Z -> option (list Z).
Variables (frame : list Z) (flip : Z).

Local Abbreviation spb := (Receiver.spb fs).
Local Abbreviation syms := (Sender.tx_symbols frame).

Hypothesis spb_ok : 40 <= spb.
Hypothesis flip_ok : flip = 0 \/ flip = 1.
Hypothesis frame_ok : Forall Crc32.is_byte frame.
Hypothesis capture_ok : Z.of_nat (length syms) * spb <= n.
Hypothesis detects_ok : Link.detects fs tone flip syms.

Lemma syms_length : length syms = (100 + 24 * length frame)%nat.
Proof.
  pose proof (tx_symbols_length frame) as H.
  change pre_bits with 100 in H. unfold REP in H. lia.
Qed.

Lemma detected_symbol q :
  (q < length syms)%nat ->
  detected fs tone (Z.of_nat q * spb) flip = nth q syms 0.
Proof. apply detects_ok. Qed.

(** Read one symbol early, bit [j] of byte [i] is voted from the last
    symbol before it and its own first two symbols. *)
Lemma coded_bit_early i j pos :
  (i < length frame)%nat -> (j < 8)%nat ->
  pos = (99 + 24 * Z.of_nat i + 3 * Z.of_nat j) * spb ->
  coded_bit fs tone pos flip =
  Z.land (Z.shiftr (nth i frame 0) (7 - Z.of_nat j)) 1.
Proof.
  intros Hi Hj ->. rewrite coded_bit_value.
  change (Z.to_nat REP) with 3%nat. cbn [seq map fold_right].
  change (REP / 2) with 1.
  pose proof syms_length as Hlen.
  replace ((99 + 24 * Z.of_nat i + 3 * Z.of_nat j) * spb + Z.of_nat 0 * spb)
    with (Z.of_nat (99 + 24 * i + 3 * j) * spb) by lia.
  replace ((99 + 24 * Z.of_nat i + 3 * Z.of_nat j) * spb + Z.of_nat 1 * spb)
    with (Z.of_nat (100 + 24 * i + 3 * j + 0) * spb) by lia.
  replace ((99 + 24 * Z.of_nat i + 3 * Z.of_nat j) * spb + Z.of_nat 2 * spb)
    with (Z.of_nat (100 + 24 * i + 3 * j + 1) * spb) by lia.
  rewrite (detected_symbol (100 + 24 * i + 3 * j + 0)) by lia.
  rewrite (detected_symbol (100 + 24 * i + 3 * j + 1)) by lia.
  rewrite !tx_symbols_data by lia.
  set (bit := Z.land _ 1).
  assert (Hbit : bit = 0 \/ bit = 1).
  { subst bit. apply land_one_cases. }
  destruct (detected_bit fs tone (Z.of_nat (99 + 24 * i + 3 * j) * spb) flip)
    as [-> | ->];
    destruct Hbit as [-> | ->]; reflexivity.
Qed.

Lemma decode_byte_early i pos :
  (i < length frame)%nat ->
  pos = (99 + 24 * Z.of_nat i) * spb ->
  fst (fst (decode_byte fs tone pos flip)) = nth i frame 0.
Proof.
  intros Hi ->. rewrite decode_byte_value. cbn [fst].
  rewrite (map_ext_in _
             (fun j => Z.land (Z.shiftr (nth i frame 0) (7 - Z.of_nat j)) 1)).
  - apply horner_byte_bits.
    rewrite List.Forall_forall in frame_ok. apply frame_ok, nth_In, Hi.
  - intros j Hj. apply in_seq in Hj.
    apply (coded_bit_early i j); [exact Hi|lia|unfold REP; lia].
Qed.

Lemma bytes_at_early k : forall i pos,
  (i + k <= length frame)%nat ->
  pos = (99 + 24 * Z.of_nat i) * spb ->
  bytes_at fs tone k pos flip = take k (drop i frame).
Proof.
  induction k as [|k IH]; intros i pos Hik Hpos; [reflexivity|].
  rewrite bytes_at_succ, (decode_byte_early i) by (try exact Hpos; lia).
  rewrite (drop_nth_cons frame 0 i) by lia. cbn [take]. f_equal.
  apply IH; [lia|]. subst pos. unfold REP. lia.
Qed.

(** The preamble matches in full under polarity [flip]. *)
Lemma score_loop_clean k : 100 * spb < n -> forall b score,
  (b + k <= 100)%nat ->
  fst (score_preamble_loop n fs tone k (Z.of_nat b) score 0 flip) =
  score + Z.of_nat k.
Proof.
  intros Hlong. pose proof syms_length as Hlen.
  induction k as [|k IH]; intros b score Hbk; [simpl; lia|].
  cbn [score_preamble_loop].
  assert (Hb : Z.of_nat b * spb + spb <= 100 * spb) by nia.
  destruct (Z.geb_spec (0 + Z.of_nat b * spb + spb) n) as [Hge|_]; [lia|].
  rewrite fst_bind.
  replace (0 + Z.of_nat b * spb) with (Z.of_nat b * spb) by lia.
  fold (detected fs tone (Z.of_nat b * spb) flip).
  rewrite detected_symbol, tx_symbols_preamble by lia.
  replace (Z.of_nat b + 1) with (Z.of_nat (S b)) by lia.
  replace (if Z.land (Z.of_nat b) 1 =? 0 then 0 else 1) with (Z.of_nat b mod 2).
  - rewrite Z.eqb_refl, IH by lia. lia.
  - rewrite land_one_mod.
    pose proof (Z.mod_pos_bound (Z.of_nat b) 2 ltac:(lia)).
    destruct (Z.eqb_spec (Z.of_nat b mod 2) 0); lia.
Qed.

Lemma capture_long : (100 + 24 * Z.of_nat (length frame)) * spb <= n.
Proof. pose proof syms_length. lia. Qed.

Lemma score_clean :
  100 * spb < n ->
  score_at n fs tone 0 flip = 100 /\ score_at n fs tone 0 (1 - flip) = 0.
Proof.
  intros Hlong.
  assert (H1 : score_at n fs tone 0 flip = 100).
  { unfold score_at, score_preamble. rewrite fst_bind.
    change (Z.to_nat pre_bits) with 100%nat.
    exact (score_loop_clean 100 Hlong 0%nat 0 ltac:(lia)). }
  split; [exact H1|].
  pose proof capture_long as Hn.
  pose proof (score_at_sum n fs tone 0 ltac:(lia)
                ltac:(change pre_bits with 100; nia)) as Hsum.
  change pre_bits with 100 in Hsum.
  destruct flip_ok as [Hf|Hf]; rewrite Hf in H1 |- *.
  - change (1 - 0) with 1. lia.
  - change (1 - 1) with 0. lia.
Qed.

End LinkProofs.

Section LinkMain.
Import Params Receiver.
Variables (n fs : Z) (tone : Z -> Z -> bool).
Variable decrypt : list Z -> option (list Z).
Variables (cipher : list Z) (flip : Z).

Local Abbreviation spb := (Receiver.spb fs).
Local Abbreviation frame := (Sender.frame_spec cipher).
Local Abbreviation L := (Z.of_nat (length cipher)).

Hypothesis spb_ok : 40 <= spb.
Hypothesis flip_ok : flip = 0 \/ flip = 1.
Hypothesis cipher_ok : Forall Crc32.is_byte cipher.
Hypothesis capture_ok : Z.of_nat (length (Sender.tx_symbols frame)) * spb <= n.
Hypothesis detects_ok : Link.detects fs tone flip (Sender.tx_symbols frame).

Lemma link_capture : (388 + 24 * L) * spb <= n.
Proof.
  pose proof (capture_long n fs frame capture_ok) as H.
  rewrite frame_spec_length in H. lia.
Qed.

Lemma link_bytes k i pos :
  (i + k <= length frame)%nat ->
  pos = (99 + 24 * Z.of_nat i) * spb ->
  bytes_at fs tone k pos flip = take k (drop i frame).
Proof.
  apply (bytes_at_early fs tone frame flip);
    [apply frame_spec_bytes, cipher_ok|exact detects_ok].
Qed.

Lemma link_coarse :
  fst (coarse_search n fs tone) =
  Some {| best_off := 0; best_inv := flip; best_score := 100 |}.
Proof.
  pose proof link_capture as Hn.
  pose proof (preamble_shorter_than_search fs spb_ok) as H3.
  assert (Hguard : 0 + pre_bits * spb < Receiver.search_max n fs).
  { unfold Receiver.search_max. change pre_bits with 100 in *.
    destruct (Z.gtb_spec (3 * fs) n); lia. }
  unfold coarse_search, coarse_fuel.
  destruct (coarse_loop_iter n fs tone (Z.to_nat (Receiver.search_max n fs)) 0
              {| best_off := -1; best_inv := 0; best_score := -1 |} Hguard)
    as [Hfst _].
  cbv zeta in Hfst. rewrite Hfst. clear Hfst.
  destruct (score_clean n fs tone frame flip spb_ok flip_ok capture_ok detects_ok
              ltac:(lia)) as [Hs Hs'].
  destruct flip_ok as [Hf|Hf]; rewrite Hf in *.
  - change (1 - 0) with 1 in Hs'. rewrite Hs, Hs'. reflexivity.
  - change (1 - 1) with 0 in Hs'. rewrite Hs, Hs'. reflexivity.
Qed.

Lemma link_magic : magic_at fs tone (99 * spb, flip) = true.
Proof.
  unfold magic_at. cbn [fst snd].
  rewrite (link_bytes 4 0) by (rewrite ?frame_spec_length; lia).
  reflexivity.
Qed.

Lemma link_refine :
  fst (refine n fs tone (0 + pre_bits * spb) flip) = Some (99 * spb, flip).
Proof.
  pose proof link_capture as Hn. pose proof link_magic as Hm.
  pose proof (step2_pos fs) as Hstep.
  destruct (refine_loop_spec n fs tone (refine_fuel fs) flip
              (0 + pre_bits * spb) (- spb)) as [Hfst _];
    [unfold refine_fuel; lia..|].
  cbv zeta in Hfst. unfold refine. rewrite Hfst. clear Hfst.
  unfold candidates_from. rewrite deltas_from_next by lia. cbn [flat_map].
  replace (0 + pre_bits * spb + - spb) with (99 * spb)
    by (change pre_bits with 100; lia).
  assert (Hg : refine_guard n fs (99 * spb) = true).
  { unfold refine_guard.
    destruct (Z.ltb_spec (99 * spb) 0); [lia|].
    destruct (Z.geb_spec (99 * spb + 4 * REP * spb * 8) n);
      [unfold REP in *; lia|reflexivity]. }
  rewrite Hg. cbn [app find].
  destruct flip_ok as [Hf|Hf]; rewrite Hf in *.
  - now rewrite Hm.
  - destruct (magic_at fs tone (99 * spb, 0)) eqn:H0.
    + apply magic_one_polarity in H0. congruence.
    + now rewrite Hm.
Qed.

Lemma link_header_len :
  0 <= L < 2 ^ 32 -> header_len fs tone (99 * spb) flip = L.
Proof.
  intros HL. unfold header_len.
  rewrite (link_bytes 8 0) by (rewrite ?frame_spec_length; lia).
  change (drop 4 (take 8 (drop 0 frame))) with (Sender.be32_bytes L).
  now apply be32_bytes_decode.
Qed.

(** The run up to the frame decoder. *)
Lemma link_main :
  fst (main n fs tone decrypt) =
  Some (fst (decode_frame fs tone decrypt (99 * spb) flip)).
Proof.
  pose proof link_capture as Hn.
  destruct (main_stages n fs tone decrypt ltac:(lia) spb_ok)
    as (c & Hc & Hcase).
  rewrite link_coarse in Hc. injection Hc as <-. cbn [best_off best_inv] in Hcase.
  destruct Hcase as [[Hneg _]|(_ & pos & invert & Hr & Hcase)]; [lia|].
  rewrite link_refine in Hr. injection Hr as <- <-.
  destruct Hcase as [[Hneg _]|(_ & _ & Hres)]; [lia|exact Hres].
Qed.

Lemma link_unreadable :
  L = 0 \/ 2000000 < L < 2 ^ 32 ->
  fst (main n fs tone decrypt) = Some (inl BadLen).
Proof.
  intros HL. rewrite link_main, decode_frame_cases, link_magic.
  unfold negb at 1. rewrite link_header_len by lia.
  destruct (Z.eqb_spec L 0); [reflexivity|].
  destruct (Z.gtb_spec L 2000000); [reflexivity|lia].
Qed.



End LinkMain.

Section MainTrace.
Import Params Receiver.
Variables (n fs : Z) (tone : Z -> Z -> bool).
Variable decrypt : list Z -> option (list Z).

Local Abbreviation spb := (Receiver.spb fs).








End MainTrace.



(** X9.  The sender frames ciphertexts the receiver refuses: it has no
    test on the length, so the empty ciphertext (the empty message) and
    any ciphertext longer than 2,000,000 bytes are framed and sent, and
    the receiver, detecting every symbol of such a frame correctly, exits
    with "Invalid LEN". *)
Theorem unreadable_lengths (n fs : Z) (tone : Z -> Z -> bool)
    (decrypt : list Z -> option (list Z)) (junk : nat -> Z)
    (cipher : list Z) (flip : Z) :
  40 <= Receiver.spb fs ->
  flip = 0 \/ flip = 1 ->
  Forall Crc32.is_byte cipher ->
  Z.of_nat (length cipher) = 0 \/ 2000000 < Z.of_nat (length cipher) < 2 ^ 31 ->
  let syms := Sender.tx_symbols (Sender.build_frame junk cipher) in
  Z.of_nat (length syms) * Receiver.spb fs <= n ->
  Link.detects fs tone flip syms ->
  fst (Receiver.main n fs tone decrypt) = Some (inl Receiver.BadLen).
Proof.
  intros Hspb Hflip Hbytes HL syms Hcap Hdet. subst syms.
  rewrite build_frame_spec in Hcap, Hdet.
  apply (link_unreadable n fs tone decrypt cipher flip); try assumption. lia.
Qed.

(** X9 on the empty ciphertext. *)
Lemma unreadable_lengths_witness :
  40 <= Receiver.spb 8000 /\ (0 = 0 \/ 0 = 1) /\
  Forall Crc32.is_byte [] /\
  (Z.of_nat (length (@nil Z)) = 0 \/
   2000000 < Z.of_nat (length (@nil Z)) < 2 ^ 31) /\
  Z.of_nat (length (Sender.tx_symbols (Sender.build_frame (fun _ => 0) [])))
    * Receiver.spb 8000 <= 46560 /\
  Link.detects 8000 Link.empty_capture 0
    (Sender.tx_symbols (Sender.build_frame (fun _ => 0) [])) /\
  fst (Receiver.main 46560 8000 Link.empty_capture Some) =
    Some (inl Receiver.BadLen).
Proof.
  assert (H1 : 40 <= Receiver.spb 8000) by (vm_compute; discriminate).
  assert (H2 : 0 = 0 \/ 0 = 1) by (left; reflexivity).
  assert (H3 : Forall Crc32.is_byte []) by constructor.
  assert (H4 : Z.of_nat (length (@nil Z)) = 0 \/
               2000000 < Z.of_nat (length (@nil Z)) < 2 ^ 31)
    by (left; reflexivity).
  assert (H5 : Z.of_nat (length (Sender.tx_symbols
                                   (Sender.build_frame (fun _ => 0) [])))
               * Receiver.spb 8000 <= 46560) by (vm_compute; discriminate).
  assert (H6 : Link.detects 8000 Link.empty_capture 0
                 (Sender.tx_symbols (Sender.build_frame (fun _ => 0) []))).
  { assert (Hall : forallb
              (fun j => Receiver.detected 8000 Link.empty_capture
                          (Z.of_nat j * Receiver.spb 8000) 0
                        =? nth j (Sender.tx_symbols
                                    (Sender.build_frame (fun _ => 0) [])) 0)
              (seq 0 388) = true) by (vm_compute; reflexivity).
    rewrite forallb_forall in Hall. intros j Hj.
    apply Z.eqb_eq, Hall, in_seq.
    change (length (Sender.tx_symbols (Sender.build_frame (fun _ => 0) [])))
      with 388%nat in Hj. lia. }
  refine (conj H1 (conj H2 (conj H3 (conj H4 (conj H5 (conj H6 _)))))).
  exact (unreadable_lengths 46560 8000 Link.empty_capture Some
           (fun _ => 0) [] 0 H1 H2 H3 H4 H5 H6).
Defined.



(* ===================================================================== *)
(** * Further properties: what the two searches settle on                 *)
(* ===================================================================== *)

Section LockProofs.
Import Params Receiver.
Variables (n fs : Z) (tone : Z -> Z -> bool).

Local Abbreviation spb := (Receiver.spb fs).
Local Abbreviation step := (Receiver.step fs).
Local Abbreviation step2 := (Receiver.step2 fs).
Local Abbreviation search_max := (Receiver.search_max n fs).
Local Abbreviation sc := (fun c : Z * Z => score_at n fs tone (fst c) (snd c)).

(** The coarse loop folds the update over the candidates it scores. *)
Lemma coarse_loop_fold fuel : forall off st,
  (0 < fuel)%nat -> search_max - off < Z.of_nat fuel -> 0 <= spb ->
  exists m,
    fst (coarse_loop n fs tone fuel off st) =
      Some (fold_left (Link.scan_step n fs tone)
                      (flat_map both (offsets_from fs off m)) st) /\
    scores (snd (coarse_loop n fs tone fuel off st)) =
      flat_map both (offsets_from fs off m).
Proof.
  pose proof (step_pos fs) as Hstep.
  induction fuel as [|fuel IH]; intros off st Hfuel Hroom Hspb; [lia|].
  assert (Hpre : 0 <= pre_bits * spb) by (change pre_bits with 100; lia).
  destruct (Z_lt_ge_dec (off + pre_bits * spb) search_max) as [Hguard|Hguard].
  - destruct (coarse_loop_iter n fs tone fuel off st Hguard) as [Hfst Hsnd].
    cbv zeta in Hfst, Hsnd. rewrite Hfst, Hsnd. clear Hfst Hsnd.
    set (st2 := improve (improve st off 0 (score_at n fs tone off 0))
                        off 1 (score_at n fs tone off 1)).
    destruct (best_score st2 >? early_stop).
    + exists 1%nat. rewrite offsets_from_succ. split; reflexivity.
    + destruct (IH (off + step) st2 ltac:(lia) ltac:(lia) Hspb) as (m & Hres & Hsc).
      exists (S m). rewrite offsets_from_succ. rewrite Hres, Hsc.
      split; reflexivity.
  - rewrite coarse_loop_exit by lia. exists 0%nat. split; reflexivity.
Qed.

(** Folding the update keeps the first candidate of maximal score. *)
Lemma scan_first_best (l : list (Z * Z)) : forall st,
  let r := fold_left (Link.scan_step n fs tone) l st in
  (r = st /\ forall x, In x l -> sc x <= best_score st) \/
  (exists before after,
     l = before ++ (best_off r, best_inv r) :: after /\
     best_score r = sc (best_off r, best_inv r) /\
     best_score st < best_score r /\
     (forall x, In x before -> sc x < best_score r) /\
     (forall x, In x after -> sc x <= best_score r)).
Proof.
  induction l as [|[o i] l IH]; intros st r.
  - left. split; [reflexivity|]. intros x [].
  - subst r. cbn [fold_left].
    set (st1 := Link.scan_step n fs tone st (o, i)).
    assert (Hst1 : (sc (o, i) <= best_score st /\ st1 = st) \/
                   (best_score st < sc (o, i) /\
                    st1 = {| best_off := o; best_inv := i;
                             best_score := sc (o, i) |})).
    { subst st1. unfold Link.scan_step, improve. cbn [fst snd].
      destruct (Z.gtb_spec (score_at n fs tone o i) (best_score st));
        [right|left]; split; try reflexivity; cbn [fst snd]; lia. }
    clearbody st1.
    destruct (IH st1) as [[Hr Hall]|(before & after & Hl & Hbest & Hgt & Hb & Ha)].
    + rewrite Hr. destruct Hst1 as [[Hle ->]|[Hlt ->]].
      * left. split; [reflexivity|]. intros x [<-|Hin]; [exact Hle|now apply Hall].
      * right. exists [], l. cbn [best_off best_inv best_score] in *.
        splits; [reflexivity|reflexivity|exact Hlt| |exact Hall].
        intros x [].
    + right. exists ((o, i) :: before), after.
      splits; [now rewrite Hl at 1|exact Hbest| | |exact Ha].
      * destruct Hst1 as [[Hle Heq]|[Hlt Heq]]; subst st1;
          cbn [best_score fst snd] in *; lia.
      * intros x [<-|Hin]; [|now apply Hb].
        destruct Hst1 as [[Hle Heq]|[Hlt Heq]]; subst st1;
          cbn [best_score fst snd] in *; lia.
Qed.

Lemma deltas_from_range delta d :
  In d (deltas_from fs delta) ->
  delta <= d <= spb /\ exists k, 0 <= k /\ d = delta + k * step2.
Proof.
  pose proof (step2_pos fs) as Hs. unfold deltas_from. intros Hin.
  apply in_map_iff in Hin as (k & <- & Hk). apply in_seq in Hk.
  pose proof (Z.mul_div_le (spb - delta) step2 Hs) as Hdiv.
  split; [|exists (Z.of_nat k); split; [lia|reflexivity]].
  assert (Z.of_nat k <= (spb - delta) / step2) by lia. nia.
Qed.

End LockProofs.

(** X11.  Tie-break of the coarse search: the offset and polarity it
    returns are those of the first candidate, in the order scored (offsets
    ascending, polarity 0 before 1), that attains the best score; every
    candidate scored before it scored strictly less, and none scored
    more.  Without a candidate the offset stays [-1]. *)
Theorem coarse_first_best (n fs : Z) (tone : Z -> Z -> bool) :
  40 <= Receiver.spb fs ->
  let run := Receiver.coarse_search n fs tone in
  let sc := fun c : Z * Z => Receiver.score_at n fs tone (fst c) (snd c) in
  exists c,
    fst run = Some c /\
    ((Receiver.scores (snd run) = [] /\ Receiver.best_off c = -1) \/
     exists before after,
       Receiver.scores (snd run) =
         before ++ (Receiver.best_off c, Receiver.best_inv c) :: after /\
       Receiver.best_score c = sc (Receiver.best_off c, Receiver.best_inv c) /\
       (forall x, In x before -> sc x < Receiver.best_score c) /\
       (forall x, In x after -> sc x <= Receiver.best_score c)).
Proof.
  intros Hspb run sc. subst run. unfold Receiver.coarse_search.
  destruct (coarse_loop_fold n fs tone (Receiver.coarse_fuel n fs) 0
              {| Receiver.best_off := -1; Receiver.best_inv := 0;
                 Receiver.best_score := -1 |})
    as (m & Hres & Hsc); [unfold Receiver.coarse_fuel; lia..|].
  rewrite Hres, Hsc. eexists. split; [reflexivity|].
  destruct (scan_first_best n fs tone
              (flat_map Receiver.both (Receiver.offsets_from fs 0 m))
              {| Receiver.best_off := -1; Receiver.best_inv := 0;
                 Receiver.best_score := -1 |})
    as [[Hr Hall]|(before & after & Hl & Hbest & _ & Hb & Ha)].
  - left. rewrite Hr. split; [|reflexivity].
    destruct (flat_map Receiver.both (Receiver.offsets_from fs 0 m))
      as [|x l]; [reflexivity|exfalso].
    specialize (Hall x (or_introl eq_refl)). cbn [Receiver.best_score] in Hall.
    pose proof (score_at_bounds n fs tone (fst x) (snd x)). lia.
  - right. exists before, after. splits; assumption.
Qed.

(** X11 on 12050 silent samples: every candidate scores 50 and the
    first one is kept. *)
Lemma coarse_first_best_witness :
  40 <= Receiver.spb 8000 /\
  exists c,
    fst (Receiver.coarse_search 12050 8000 Scenarios.low_tone) = Some c /\
    Receiver.best_off c = 0 /\ Receiver.best_inv c = 0.
Proof.
  assert (H : 40 <= Receiver.spb 8000) by (vm_compute; discriminate).
  split; [exact H|].
  destruct (coarse_first_best 12050 8000 Scenarios.low_tone H) as (c & Hc & _).
  exists c. split; [exact Hc|].
  assert (Hv : fst (Receiver.coarse_search 12050 8000 Scenarios.low_tone) =
               Some {| Receiver.best_off := 0; Receiver.best_inv := 0;
                       Receiver.best_score := 50 |}) by (vm_compute; reflexivity).
  rewrite Hv in Hc. injection Hc as <-. split; reflexivity.
Defined.

(** X12.  A position accepted by the refinement lies within one symbol
    of the base, on the grid of the scan, with its four magic bytes
    inside the capture; its polarity is 0 or 1 and the four bytes read
    there are "STEG". *)
Theorem refine_accepted_position (n fs : Z) (tone : Z -> Z -> bool)
    (base best_inv pos invert : Z) :
  40 <= Receiver.spb fs ->
  fst (Receiver.refine n fs tone base best_inv) = Some (pos, invert) ->
  0 <= pos ->
  let spb := Receiver.spb fs in
  base - spb <= pos <= base + spb /\
  (exists k, 0 <= k /\ pos = base - spb + k * Receiver.step2 fs) /\
  pos + 4 * 8 * Params.REP * spb < n /\
  (invert = 0 \/ invert = 1) /\
  Receiver.bytes_at fs tone 4 pos invert = Params.MAGIC.
Proof.
  intros Hspb Hres Hpos spb.
  destruct (refine_loop_spec n fs tone (Receiver.refine_fuel fs) best_inv base
              (- Receiver.spb fs)) as [Hfst _];
    [unfold Receiver.refine_fuel; lia..|].
  cbv zeta in Hfst. unfold Receiver.refine in Hres. rewrite Hfst in Hres.
  destruct (find _ _) as [c|] eqn:Hfind;
    [injection Hres as ->|injection Hres as Hneg _; lia].
  apply find_some in Hfind as [Hin Hm].
  unfold Receiver.candidates_from in Hin.
  apply in_flat_map in Hin as (d & Hd & Hin).
  apply deltas_from_range in Hd as [Hrange (k & Hk & Hdk)].
  unfold Receiver.refine_guard in Hin.
  destruct (Z.ltb_spec (base + d) 0) as [|Hp0]; [destruct Hin|].
  destruct (Z.geb_spec (base + d + 4 * Params.REP * Receiver.spb fs * 8) n)
    as [|Hend]; [destruct Hin|].
  cbn [negb andb] in Hin.
  assert (Hpi : pos = base + d /\ (invert = 0 \/ invert = 1)).
  { destruct Hin as [Heq|[Heq|[]]]; injection Heq as <- <-; auto. }
  destruct Hpi as [-> Hinv]. subst spb. splits.
  - lia.
  - lia.
  - exists k. split; [exact Hk|lia].
  - lia.
  - exact Hinv.
  - unfold Receiver.magic_at in Hm. cbn [fst snd] in Hm.
    destruct (Receiver.bytes_at fs tone 4 (base + d) invert)
      as [|m0 [|m1 [|m2 [|m3 [|]]]]]; try discriminate Hm.
    cbn [Receiver.is_magic] in Hm.
    apply andb_prop in Hm as [Hm H3]. apply andb_prop in Hm as [Hm H2].
    apply andb_prop in Hm as [H0 H1].
    apply Z.eqb_eq in H0, H1, H2, H3. subst. reflexivity.
Qed.

(** X12 on the capture with the tones exchanged. *)
Lemma refine_accepted_position_witness :
  40 <= Receiver.spb 8000 /\
  fst (Receiver.refine 49440 8000 Scenarios.swapped 12000 1) = Some (11880, 1) /\
  0 <= 11880 /\
  Receiver.bytes_at 8000 Scenarios.swapped 4 11880 1 = Params.MAGIC.
Proof.
  assert (H1 : 40 <= Receiver.spb 8000) by (vm_compute; discriminate).
  assert (H2 : fst (Receiver.refine 49440 8000 Scenarios.swapped 12000 1)
               = Some (11880, 1)) by (vm_compute; reflexivity).
  assert (H3 : 0 <= 11880) by lia.
  splits; [exact H1|exact H2|exact H3|].
  exact (proj2 (proj2 (proj2 (proj2
           (refine_accepted_position 49440 8000 Scenarios.swapped 12000 1
              11880 1 H1 H2 H3))))).
Defined.

(** X13.  The coarse search and the refinement read samples inside the
    capture only: a preamble score stops at the first window that would
    reach the last sample, and a refinement candidate is skipped unless
    its four magic bytes fit. *)
Theorem searches_read_inside_capture (n fs : Z) (tone : Z -> Z -> bool)
    (base best_inv : Z) :
  0 <= Receiver.spb fs ->
  Receiver.in_bounds n (snd (Receiver.coarse_search n fs tone)) /\
  Receiver.in_bounds n (snd (Receiver.refine n fs tone base best_inv)).
Proof.
  intros Hspb. split.
  - apply coarse_loop_in_bounds; [exact Hspb|lia].
  - apply refine_loop_in_bounds. exact Hspb.
Qed.

(** X13 on the capture cut after 200 symbols. *)
Lemma searches_read_inside_capture_witness :
  0 <= Receiver.spb 44100 /\
  Receiver.in_bounds 132400
    (snd (Receiver.coarse_search 132400 44100 Scenarios.cut)) /\
  Receiver.in_bounds 132400
    (snd (Receiver.refine 132400 44100 Scenarios.cut 66200 0)).
Proof.
  assert (H : 0 <= Receiver.spb 44100) by (vm_compute; discriminate).
  split; [exact H|].
  exact (searches_read_inside_capture 132400 44100 Scenarios.cut 66200 0 H).
Defined.

(** X14.  The sender as a whole, for a command line with a message: it
    returns 1 exactly when one of its three buffers is refused, the
    cipher fails or the output file cannot be opened; otherwise the frame
    is magic, big-endian length, ciphertext and big-endian CRC, and the
    buffer handed to the file holds, at 662 samples per symbol, the 100
    preamble symbols followed by every frame bit three times, most
    significant bit first, whatever the fresh buffers contained. *)
Theorem sender_main_outcome {sample : Type} (res : Sender.resources)
    (encrypt : list Z -> option (list Z)) (synth : Z -> Z -> Z -> sample)
    (junk_frame : nat -> Z) (junk_buf : nat -> sample) (msg : list Z) :
  Sender.main res encrypt synth junk_frame junk_buf msg =
  match encrypt msg with
  | None => Sender.Failed
  | Some cipher =>
      if Sender.cipher_alloc res && Sender.frame_alloc res &&
         Sender.out_open res && Sender.buf_alloc res
      then Sender.Written (Sender.frame_spec cipher)
             (Sender.render synth 662
                (Sender.tx_symbols (Sender.frame_spec cipher)) 0)
      else Sender.Failed
  end.
Proof.
  unfold Sender.main.
  destruct (Sender.cipher_alloc res); cbn [negb andb];
    [|now destruct (encrypt msg)].
  destruct (encrypt msg) as [cipher|]; [|reflexivity].
  destruct (Sender.frame_alloc res); cbn [negb andb]; [|reflexivity].
  change (Params.spb_of_fs Sender.SAMPLE_RATE) with 662.
  change (662 <? 40) with false. cbv iota.
  destruct (Sender.out_open res); cbn [negb andb]; [|reflexivity].
  destruct (Sender.buf_alloc res); cbn [negb andb]; [|reflexivity].
  rewrite modulate_symbols by lia. now rewrite build_frame_spec.
Qed.

(** X15.  The two search loops of the receiver end on every capture:
    the coarse step and the refinement step are at least one sample, so
    the coarse search is over within [search_max + 1] rounds and the
    refinement, from any base and polarity, within [2 * spb + 2]
    rounds. *)
Theorem search_loops_terminate (n fs : Z) (tone : Z -> Z -> bool) :
  40 <= Receiver.spb fs ->
  1 <= Receiver.step fs /\ 1 <= Receiver.step2 fs /\
  (exists c,
     fst (Receiver.coarse_loop n fs tone
            (S (Z.to_nat (Receiver.search_max n fs))) 0
            {| Receiver.best_off := -1; Receiver.best_inv := 0;
               Receiver.best_score := -1 |}) = Some c) /\
  (forall base best_inv, exists r,
     fst (Receiver.refine_loop n fs tone
            (Z.to_nat (2 * Receiver.spb fs + 2)) (- Receiver.spb fs)
            base best_inv) = Some r).
Proof.
  intros Hspb.
  pose proof (step_pos fs) as Hs1. pose proof (step2_pos fs) as Hs2.
  split; [lia|]. split; [lia|]. split.
  - destruct (coarse_search_inv n fs tone ltac:(lia)) as (m & c & Hc & _).
    exists c. exact Hc.
  - intros base best_inv.
    destruct (refine_loop_spec n fs tone (Z.to_nat (2 * Receiver.spb fs + 2))
                best_inv base (- Receiver.spb fs)) as [Hfst _]; [lia..|].
    cbv zeta in Hfst. rewrite Hfst. eauto.
Qed.

(** X15 at 8000 Hz on 12050 silent samples. *)
Lemma search_loops_terminate_witness :
  40 <= Receiver.spb 8000 /\
  exists c, fst (Receiver.coarse_search 12050 8000 Scenarios.low_tone) = Some c.
Proof.
  assert (H : 40 <= Receiver.spb 8000) by (vm_compute; discriminate).
  split; [exact H|].
  exact (proj1 (proj2 (proj2
           (search_loops_terminate 12050 8000 Scenarios.low_tone H)))).
Defined.
